(** * readingData.py: Arrow IPC stream to CSV conversion

    A shallow embedding of the script [readingData.py].  The script opens
    [./Dataset.hf/train/data-00000-of-00001.arrow], wraps the handle in
    [pa.ipc.RecordBatchStreamReader], materialises every record batch with
    [read_all], converts the table with [to_pandas] and writes it with
    [df.to_csv] to [./DataBase.csv]; all of this happens inside the [with]
    block that owns the source handle.

    The script is glue between pyarrow, pandas and the csv writer pandas
    drives, so the development has three layers:
    - [Csv]: the csv writer with the dialect [to_csv] uses by default
      (comma delimiter, double quote as quote character, minimal quoting,
      doubled quotes, [os.linesep] as line terminator), and a reference
      reader used to say what a CSV text contains;
    - [Arrow]: schemas, record batches, tables with chunked columns, the
      layout [to_pandas] gives a data frame, and data frames;
    - [Script]: files, handles, the console, exceptions and the script
      itself, in a state-and-exception monad.

    What the libraries and the installation decide, and the script cannot
    see, is a parameter ([Runtime]): the binary decoding of the IPC stream
    and the exception the reader raises on a stream it rejects, the type of
    a cell and the text pandas writes for a cell, what [to_pandas] makes of
    pandas metadata stored in the schema, whether the csv writer of the
    interpreter quotes every line break or only the characters of its line
    terminator, and the platform's [os.linesep].  Whatever a theorem needs
    of these is one of its hypotheses. *)

From Stdlib Require Import Ascii DecimalString DecimalNat.
From stdpp Require Import gmap strings list.

#[local] Arguments String.append !_ _ / : simpl nomatch.

(** ** Text helpers *)

Definition LF : ascii := "010"%char.
Definition CR : ascii := "013"%char.
Definition comma : ascii := ","%char.
Definition dquote : ascii := "034"%char.

Definition str1 (c : ascii) : string := String c EmptyString.

Fixpoint str_mem (c : ascii) (s : string) : bool :=
  match s with
  | EmptyString => false
  | String d s' => Ascii.eqb c d || str_mem c s'
  end.

Fixpoint str_exists (p : ascii -> bool) (s : string) : bool :=
  match s with
  | EmptyString => false
  | String c s' => p c || str_exists p s'
  end.

(** Python's [str(i)] for a non-negative integer, and for any integer. *)
Definition str_nat (n : nat) : string := NilZero.string_of_uint (Nat.to_uint n).

Definition str_int (z : Z) : string :=
  match z with
  | Z0 => str_nat 0
  | Zpos p => str_nat (Pos.to_nat p)
  | Zneg p => String "-" (str_nat (Pos.to_nat p))
  end.

(** The value of [os.linesep], the default [lineterminator] of [to_csv]. *)
Inductive platform := Posix | Windows.

Definition linesep (p : platform) : string :=
  match p with
  | Posix => str1 LF
  | Windows => String CR (str1 LF)
  end.

(** The exceptions a run can end with.  [OtherError] stands for any
    exception of the libraries that has no name here. *)
Inductive exn :=
  | FileNotFoundError | PermissionError | ValueError
  | ArrowInvalid | OSError | OtherError (name : string).

(** ** The csv writer *)

Module Csv.

(** What the writer is configured with here: the line terminator, and
    whether the interpreter's writer quotes a field that holds a CR or LF
    whatever the line terminator is (CPython from 3.13 on) or only when the
    character occurs in the line terminator (CPython before 3.13). *)
Record dialect := Dialect {
  lineterminator : string;
  quote_every_break : bool
}.

(** A field character that forces quoting under QUOTE_MINIMAL: the
    delimiter, the quote character, any character of the line terminator,
    and on the newer writers CR and LF in any case. *)
Definition is_special (d : dialect) (c : ascii) : bool :=
  Ascii.eqb c comma || Ascii.eqb c dquote
  || (quote_every_break d && (Ascii.eqb c LF || Ascii.eqb c CR))
  || str_mem c (lineterminator d).

(** The copy loop of the writer with [doublequote] set: every quote
    character of the field is written twice. *)
Fixpoint double_quotes (field : string) : string :=
  match field with
  | EmptyString => EmptyString
  | String c s =>
      if Ascii.eqb c dquote
      then String dquote (String dquote (double_quotes s))
      else String c (double_quotes s)
  end.

(** [join_append]: one field, preceded by the delimiter unless it is the
    first of its record.  [quoted] is the caller's request; the scan of the
    field raises it when a special character is found. *)
Definition join_append (d : dialect) (num_fields : nat)
    (field : string) (quoted : bool) : string :=
  let quoted := quoted || str_exists (is_special d) field in
  (if num_fields is O then EmptyString else str1 comma)
  +:+ (if quoted then str1 dquote else EmptyString)
  +:+ double_quotes field
  +:+ (if quoted then str1 dquote else EmptyString).

Fixpoint join_fields (d : dialect) (num_fields : nat)
    (fields : list string) : string :=
  match fields with
  | [] => EmptyString
  | f :: fs =>
      join_append d num_fields f false +:+ join_fields d (S num_fields) fs
  end.

(** [writerow]: the joined fields; a record that has fields and is still
    empty (one empty field) is written as a quoted empty field; then the
    line terminator. *)
Definition writerow (d : dialect) (fields : list string) : string :=
  let rec := join_fields d 0 fields in
  (if decide (0 < length fields ∧ rec = EmptyString)
   then join_append d 0 EmptyString true
   else rec)
  +:+ lineterminator d.

Fixpoint writerows (d : dialect) (rows : list (list string)) : string :=
  match rows with
  | [] => EmptyString
  | r :: rs => writerow d r +:+ writerows d rs
  end.

(** *** Reference reader

    A reader for the same dialect, as a character automaton: fields are
    separated by commas, records by LF, CR or CRLF, a field that opens with
    a quote runs to the closing quote and a doubled quote inside it stands
    for one quote; blank lines carry no record.  It is the yardstick for
    what a CSV text contains, not part of the script. *)
Inductive rmode :=
  | StartRecord | StartField | InField | InQuoted | QuoteInQuoted.

(** The reader between two characters: its mode, the records finished so
    far, the fields finished in the record under way, and the field under
    way. *)
Record rstate := RState {
  mode : rmode;
  recs : list (list string);
  rec : list string;
  fld : string
}.

Definition snoc_char (s : string) (c : ascii) : string := s +:+ str1 c.

Definition is_break (c : ascii) : bool := Ascii.eqb c LF || Ascii.eqb c CR.

Definition step (s : rstate) (c : ascii) : rstate :=
  match mode s with
  | StartRecord =>
      if is_break c then RState StartRecord (recs s) [] EmptyString
      else if Ascii.eqb c comma then RState StartField (recs s) [EmptyString] EmptyString
      else if Ascii.eqb c dquote then RState InQuoted (recs s) [] EmptyString
      else RState InField (recs s) [] (str1 c)
  | StartField =>
      if is_break c then RState StartRecord (recs s ++ [rec s ++ [fld s]]) [] EmptyString
      else if Ascii.eqb c comma then RState StartField (recs s) (rec s ++ [fld s]) EmptyString
      else if Ascii.eqb c dquote then RState InQuoted (recs s) (rec s) EmptyString
      else RState InField (recs s) (rec s) (str1 c)
  | InField =>
      if is_break c then RState StartRecord (recs s ++ [rec s ++ [fld s]]) [] EmptyString
      else if Ascii.eqb c comma then RState StartField (recs s) (rec s ++ [fld s]) EmptyString
      else RState InField (recs s) (rec s) (snoc_char (fld s) c)
  | InQuoted =>
      if Ascii.eqb c dquote then RState QuoteInQuoted (recs s) (rec s) (fld s)
      else RState InQuoted (recs s) (rec s) (snoc_char (fld s) c)
  | QuoteInQuoted =>
      if is_break c then RState StartRecord (recs s ++ [rec s ++ [fld s]]) [] EmptyString
      else if Ascii.eqb c comma then RState StartField (recs s) (rec s ++ [fld s]) EmptyString
      else if Ascii.eqb c dquote then RState InQuoted (recs s) (rec s) (snoc_char (fld s) c)
      else RState InField (recs s) (rec s) (snoc_char (fld s) c)
  end.

Fixpoint run (s : rstate) (input : string) : rstate :=
  match input with
  | EmptyString => s
  | String c rest => run (step s c) rest
  end.

(** At the end of the text a record under way is finished. *)
Definition finish (s : rstate) : list (list string) :=
  match mode s with
  | StartRecord => recs s
  | _ => recs s ++ [rec s ++ [fld s]]
  end.

Definition start : rstate := RState StartRecord [] [] EmptyString.

Definition read (text : string) : list (list string) := finish (run start text).

(** The modes in which a field is pending and a comma, a line break or
    the end of the text closes it. *)
Definition field_done (m : rmode) : Prop :=
  m = StartField ∨ m = InField ∨ m = QuoteInQuoted.





(** A field whose line breaks, if it holds any, are inside quotes once
    it is written: it is quoted, or it holds no CR and no LF.  Only such a
    field is read back as it was. *)
Definition reads_back (d : dialect) (field : string) : bool :=
  str_exists (is_special d) field || negb (str_exists is_break field).



End Csv.

(** ** Schemas, record batches, tables and data frames *)

Module Arrow.

(** How [to_pandas] lays a table out as a data frame: the levels of the
    row index, each with its name and either a column of the table or an
    arithmetic range, and the columns kept as data, each with its label and
    its position in the table.  A level list left empty stands for the
    default, [RangeIndex(num_rows)]. *)
Inductive index_source :=
  | IndexColumn (j : nat)
  | IndexRange (first step : Z).

Record layout := Layout {
  index_levels : list (option string * index_source);
  data_columns : list (string * nat)
}.

(** Without pandas metadata: an unnamed range index from zero, and every
    field of the schema as a data column, in schema order. *)
Definition default_layout (fields : list string) : layout :=
  {| index_levels := [(None, IndexRange 0 1)];
     data_columns := imap (λ j name, (name, j)) fields |}.

Definition effective_levels (L : layout) : list (option string * index_source) :=
  match index_levels L with
  | [] => [(None, IndexRange 0 1)]
  | levels => levels
  end.

(** The header [to_csv] writes for a layout: the names of the index
    levels, empty for an unnamed one, then the column labels. *)
Definition header_of (L : layout) : list string :=
  ((λ lv : option string * index_source, default EmptyString lv.1)
     <$> effective_levels L)
  ++ (fst <$> data_columns L).

Section Columnar.
Context {value metadata : Type}.

(** A schema: the field names and, when the stream was written from a
    data frame, the pandas metadata stored with them. *)
Record schema := Schema {
  names : list string;
  pandas_metadata : option metadata
}.

(** A record batch: its row count and one array per field of the schema.
    The row count is a field of its own: a batch without columns still
    has rows. *)
Record record_batch := RecordBatch {
  num_rows : nat;
  columns : list (list value)
}.

(** What the stream reader accepts: as many arrays as the schema has
    fields, each of the length of the batch. *)
Definition batch_ok (fields : list string) (b : record_batch) : Prop :=
  length (columns b) = length fields
  ∧ Forall (λ c : list value, length c = num_rows b) (columns b).

#[global] Instance batch_ok_dec fields b : Decision (batch_ok fields b).
Proof. unfold batch_ok. apply _. Defined.

(** A table: its schema, row count, and every column as a chunked array
    (one chunk per record batch). *)
Record table := Table {
  t_schema : schema;
  t_num_rows : nat;
  t_columns : list (list (list value))
}.

(** The chunked columns of a stream: column [j] is made of column [j] of
    every batch, in stream order. *)
Definition chunked (fields : list string) (batches : list record_batch)
    : list (list (list value)) :=
  imap (λ j _, (λ b, default [] (columns b !! j)) <$> batches) fields.

(** [Table.from_batches], the result of [read_all]. *)
Definition from_batches (sch : schema) (batches : list record_batch) : table :=
  {| t_schema := sch;
     t_num_rows := sum_list (num_rows <$> batches);
     t_columns := chunked (names sch) batches |}.

(** The columns of a stream with their chunks concatenated, and column
    [j] of a table. *)
Definition frame_columns (fields : list string) (batches : list record_batch)
    : list (list value) :=
  (λ chunks : list (list value), concat chunks) <$> chunked fields batches.

Definition column (t : table) (j : nat) : list value :=
  concat (default [] (t_columns t !! j)).

(** A data frame: column labels, the levels of the index (name and
    labels), the number of rows and the columns. *)
Inductive level :=
  | Keys (col : list value)
  | Ints (labels : list Z).

Record data_frame := DataFrame {
  df_columns : list string;
  df_index : list (option string * level);
  df_length : nat;
  df_data : list (list value)
}.

Definition range_labels (first step : Z) (n : nat) : list Z :=
  (λ i, (first + step * Z.of_nat i)%Z) <$> seq 0 n.

Definition build_level (t : table) (src : index_source) : level :=
  match src with
  | IndexColumn j => Keys (column t j)
  | IndexRange first step => Ints (range_labels first step (t_num_rows t))
  end.

Definition apply_layout (t : table) (L : layout) : data_frame :=
  {| df_columns := fst <$> data_columns L;
     df_index :=
       (λ lv : option string * index_source, (lv.1, build_level t lv.2))
         <$> effective_levels L;
     df_length := t_num_rows t;
     df_data := (λ c : string * nat, column t c.2) <$> data_columns L |}.

Section ToPandas.
(** What pandas metadata makes of the layout, given the field names and
    the number of rows; it may also make [to_pandas] raise. *)
Variable pandas_layout : metadata → list string → nat → exn + layout.

Definition layout_of (t : table) : exn + layout :=
  match pandas_metadata (t_schema t) with
  | None => inr (default_layout (names (t_schema t)))
  | Some md => pandas_layout md (names (t_schema t)) (t_num_rows t)
  end.

(** [Table.to_pandas]: chunks are concatenated; the index and the data
    columns are those of the layout. *)
Definition to_pandas (t : table) : exn + data_frame :=
  match layout_of t with
  | inl e => inl e
  | inr L => inr (apply_layout t L)
  end.
End ToPandas.


(** The rows of a batch, and of a stream of batches in stream order. *)
Definition batch_rows (b : record_batch) : list (list value) :=
  (λ i, omap (λ c : list value, c !! i) (columns b)) <$> seq 0 (num_rows b).

Definition stream_rows (batches : list record_batch) : list (list value) :=
  batches ≫= batch_rows.

Section ToCsv.
Variable render : value → string.
Variable d : Csv.dialect.

(** The text written for the cell at position [pos] of a column, and for
    the label at position [pos] of an index level. *)
Definition cell_text (pos : nat) (col : list value) : string :=
  from_option render EmptyString (col !! pos).

Definition level_text (pos : nat) (lv : level) : string :=
  match lv with
  | Keys col => cell_text pos col
  | Ints labels => from_option str_int EmptyString (labels !! pos)
  end.


Definition header_row (df : data_frame) : list string :=
  ((λ lv : option string * level, default EmptyString lv.1) <$> df_index df)
  ++ df_columns df.

Definition data_row (df : data_frame) (pos : nat) : list string :=
  ((λ lv : option string * level, level_text pos lv.2) <$> df_index df)
  ++ (cell_text pos <$> df_data df).

Definition csv_rows (df : data_frame) : list (list string) :=
  header_row df :: (data_row df <$> seq 0 (df_length df)).

(** [DataFrame.to_csv] with its defaults ([header=True], [index=True],
    [index_label=None], [sep=','], minimal quoting): the header row,
    then one row per row of the frame, index labels first. *)
Definition to_csv_text (df : data_frame) : string :=
  Csv.writerow d (header_row df)
  +:+ Csv.writerows d (data_row df <$> seq 0 (df_length df)).

(** The same row, read off a row of the stream: what the layout makes of
    row number [pos]. *)
Definition source_text (pos : nat) (row : list value) (src : index_source) : string :=
  match src with
  | IndexColumn j => from_option render EmptyString (row !! j)
  | IndexRange first step => str_int (first + step * Z.of_nat pos)
  end.

Definition row_fields (L : layout) (pos : nat) (row : list value) : list string :=
  ((λ lv : option string * index_source, source_text pos row lv.2)
     <$> effective_levels L)
  ++ ((λ c : string * nat, from_option render EmptyString (row !! c.2))
        <$> data_columns L).
End ToCsv.
End Columnar.

Arguments schema : clear implicits.
Arguments record_batch : clear implicits.
Arguments table : clear implicits.
Arguments level : clear implicits.
Arguments data_frame : clear implicits.

End Arrow.

(** ** What the libraries and the platform decide *)

(** [value] is a cell of the materialised table and [render] the text
    [to_csv] writes for it ([str] of the value, the empty [na_rep] for a
    missing one).  [ipc_schema] and [ipc_batches] decode the bytes of an IPC
    stream: the schema message read when the reader is built, and the
    record batches read by [read_all]; either may raise, and the reader
    returns no batch that does not fit the schema ([ipc_batches_fit]).
    [metadata] is the pandas metadata a schema may carry and
    [pandas_layout] what [to_pandas] makes of it.
    [csv_quotes_every_break] tells the csv writer of the interpreter apart
    (see [Csv.dialect]) and [os] is the platform. *)
Class Runtime := {
  value : Type;
  render : value → string;
  metadata : Type;
  ipc_schema : string → exn + Arrow.schema metadata;
  ipc_batches : string → exn + list (Arrow.record_batch value);
  ipc_batches_fit :
    ∀ bytes sch batches,
      ipc_schema bytes = inr sch → ipc_batches bytes = inr batches →
      Forall (Arrow.batch_ok (Arrow.names sch)) batches;
  pandas_layout : metadata → list string → nat → exn + Arrow.layout;
  csv_quotes_every_break : bool;
  os : platform
}.

(** ** The script *)

Module Script.

(** What [print] was given: the object, not the characters of its [repr]
    (the one of the reader holds a memory address). *)
Inductive printed `{Runtime} :=
  | ReprReader (sch : Arrow.schema metadata)
  | ReprFrame (df : Arrow.data_frame value).

Inductive event `{Runtime} :=
  | EvOpen (path : string)
  | EvRead (path : string)
  | EvClose (path : string)
  | EvWrite (path : string) (text : string)
  | EvPrint (p : printed).

(** The world the script runs in: file contents by path, the paths that
    cannot be opened for writing, the open handles (descriptor to path), and
    the log of what happened so far. *)
Record world `{Runtime} := World {
  fs : gmap string string;
  locked : gset string;
  handles : gmap nat string;
  log : list event
}.

Section Monad.
Context `{Runtime}.

Definition M (A : Type) : Type := world → (exn + A) * world.

#[global] Instance M_ret : MRet M := λ A a w, (inr a, w).
#[global] Instance M_bind : MBind M := λ A B k m w,
  match m w with
  | (inl e, w') => (inl e, w')
  | (inr a, w') => k a w'
  end.

Definition raise {A} (e : exn) : M A := λ w, (inl e, w).

(** The result of a library call that touches nothing of the world. *)
Definition returned {A} (r : exn + A) : M A := λ w, (r, w).

Definition logged (e : event) (w : world) : world :=
  {| fs := fs w; locked := locked w; handles := handles w;
     log := log w ++ [e] |}.

Definition with_handles (hs : gmap nat string) (w : world) : world :=
  {| fs := fs w; locked := locked w; handles := hs; log := log w |}.

Definition with_file (path text : string) (w : world) : world :=
  {| fs := <[path := text]> (fs w); locked := locked w;
     handles := handles w; log := log w |}.

Definition emit (e : event) : M unit := λ w, (inr (), logged e w).

(** [open(path, 'rb')] *)
Definition open_rb (path : string) : M nat := λ w,
  match fs w !! path with
  | None => (inl FileNotFoundError, w)
  | Some _ =>
      let fd := fresh (dom (handles w)) in
      (inr fd, logged (EvOpen path) (with_handles (<[fd := path]> (handles w)) w))
  end.

(** [f.close()], also what leaving the [with] block does *)
Definition close (fd : nat) : M unit := λ w,
  match handles w !! fd with
  | None => (inr (), w)
  | Some path =>
      (inr (), logged (EvClose path) (with_handles (delete fd (handles w)) w))
  end.

(** [with acquire as f: body]: the handle is closed when the body ends,
    normally or by an exception. *)
Definition with_ {A} (acquire : M nat) (body : nat → M A) : M A := λ w,
  match acquire w with
  | (inl e, w') => (inl e, w')
  | (inr fd, w') =>
      let '(r, w'') := body fd w' in
      (r, (close fd w'').2)
  end.

(** Reading the whole file behind a handle. *)
Definition read_handle (fd : nat) : M string := λ w,
  match handles w !! fd with
  | None => (inl ValueError, w)
  | Some path =>
      match fs w !! path with
      | None => (inl ValueError, w)
      | Some bytes => (inr bytes, logged (EvRead path) w)
      end
  end.

Record stream_reader := StreamReader {
  source : nat;
  schema : Arrow.schema metadata
}.

(** [pa.ipc.RecordBatchStreamReader(f)]: the schema is read at once; the
    exception is the one the reader raises. *)
Definition RecordBatchStreamReader (f : nat) : M stream_reader :=
  bytes ← read_handle f;
  match ipc_schema bytes with
  | inl e => raise e
  | inr sch => mret {| source := f; schema := sch |}
  end.

(** [reader.read_all()]: every remaining batch, as one table; the
    exception is the one the reader raises. *)
Definition read_all (reader : stream_reader) : M (Arrow.table value metadata) :=
  bytes ← read_handle (source reader);
  match ipc_batches bytes with
  | inl e => raise e
  | inr batches => mret (Arrow.from_batches (schema reader) batches)
  end.

(** [table.to_pandas()] *)
Definition to_pandas (t : Arrow.table value metadata) : M (Arrow.data_frame value) :=
  returned (Arrow.to_pandas pandas_layout t).

Definition print (p : printed) : M unit := emit (EvPrint p).

(** The dialect [to_csv] hands to the csv writer. *)
Definition dialect : Csv.dialect :=
  {| Csv.lineterminator := linesep os;
     Csv.quote_every_break := csv_quotes_every_break |}.

Definition csv_text (df : Arrow.data_frame value) : string :=
  Arrow.to_csv_text render dialect df.

(** [df.to_csv(path)]: the destination is created or truncated and the
    text written. *)
Definition to_csv (df : Arrow.data_frame value) (path : string) : M unit := λ w,
  if decide (path ∈ locked w) then (inl PermissionError, w)
  else
    let text := csv_text df in
    (inr (), logged (EvWrite path text) (with_file path text w)).

Definition dataPath : string := "./Dataset.hf/train/data-00000-of-00001.arrow".
Definition csvPath : string := "./DataBase.csv".

(** The body of the [with] block, statement by statement. *)
Definition convert (f : nat) : M unit :=
  reader ← RecordBatchStreamReader f;
  print (ReprReader (schema reader));;
  table ← read_all reader;
  shown ← to_pandas table;
  print (ReprFrame shown);;
  df ← to_pandas table;
  to_csv df csvPath.

(** The script. *)
Definition main : M unit := with_ (open_rb dataPath) convert.

(** What a run appends to the log, how it ends, and what it leaves at
    the destination. *)
Definition trace (w : world) : list event := drop (length (log w)) (log (main w).2).
Definition outcome (w : world) : exn + unit := (main w).1.
Definition output (w : world) : option string := fs (main w).2 !! csvPath.

(** A well-formed stream at the source path: the schema and the batches
    decode. *)
Definition archive_at (w : world) (sch : Arrow.schema metadata)
    (batches : list (Arrow.record_batch value)) : Prop :=
  ∃ bytes, fs w !! dataPath = Some bytes
    ∧ ipc_schema bytes = inr sch
    ∧ ipc_batches bytes = inr batches.

(** The schema carries no pandas metadata. *)
Definition plain (sch : Arrow.schema metadata) : Prop :=
  Arrow.pandas_metadata sch = None.

(** The layout and the data frame [to_pandas] gives the table of a
    stream. *)
Definition layout_of (sch : Arrow.schema metadata)
    (batches : list (Arrow.record_batch value)) : exn + Arrow.layout :=
  Arrow.layout_of pandas_layout (Arrow.from_batches sch batches).

Definition frame_of (sch : Arrow.schema metadata)
    (batches : list (Arrow.record_batch value)) : exn + Arrow.data_frame value :=
  Arrow.to_pandas pandas_layout (Arrow.from_batches sch batches).

(** The rows [to_csv] hands to the writer for a stream laid out by [L]:
    the header, then the rows of the batches. *)
Definition grid (L : Arrow.layout) (batches : list (Arrow.record_batch value))
    : list (list string) :=
  Arrow.header_of L :: imap (Arrow.row_fields render L) (Arrow.stream_rows batches).

(** Every line break of every field is inside quotes once written.  This
    is so whatever the fields hold on Windows and with a writer that quotes
    every break; otherwise it asks that no unquoted field holds a CR. *)
Definition breaks_quoted (rows : list (list string)) : Prop :=
  Forall (Forall (λ field, Csv.reads_back dialect field = true)) rows.

(** The same for the column names and the cell texts of a stream. *)
Definition texts_read_back (sch : Arrow.schema metadata)
    (batches : list (Arrow.record_batch value)) : Prop :=
  Forall (λ name, Csv.reads_back dialect name = true) (Arrow.names sch)
  ∧ Forall (Forall (λ v, Csv.reads_back dialect (render v) = true))
      (Arrow.stream_rows batches).

(** The world after a run that appended [events] and, when [text] is
    given, wrote it to the destination. *)
Definition finished (w : world) (text : option string) (events : list event) : world :=
  {| fs := from_option (λ t, <[csvPath := t]> (fs w)) (fs w) text;
     locked := locked w;
     handles := handles w;
     log := log w ++ events |}.

(** The runs of the script, by what is at the source path and whether
    the destination can be written: how the run ends, the text it writes
    and the events it appends. *)
Definition behaviour (src : option string) (dst_locked : bool)
    : (exn + unit) * option string * list event :=
  match src with
  | None => (inl FileNotFoundError, None, [])
  | Some bytes =>
      match ipc_schema bytes with
      | inl e =>
          (inl e, None, [EvOpen dataPath; EvRead dataPath; EvClose dataPath])
      | inr sch =>
          let stopped e :=
            (inl e, None,
             [EvOpen dataPath; EvRead dataPath; EvPrint (ReprReader sch);
              EvRead dataPath; EvClose dataPath]) in
          match ipc_batches bytes with
          | inl e => stopped e
          | inr batches =>
              match frame_of sch batches with
              | inl e => stopped e
              | inr df =>
                  if dst_locked then
                    (inl PermissionError, None,
                     [EvOpen dataPath; EvRead dataPath; EvPrint (ReprReader sch);
                      EvRead dataPath; EvPrint (ReprFrame df); EvClose dataPath])
                  else
                    (inr (), Some (csv_text df),
                     [EvOpen dataPath; EvRead dataPath; EvPrint (ReprReader sch);
                      EvRead dataPath; EvPrint (ReprFrame df);
                      EvWrite csvPath (csv_text df); EvClose dataPath])
              end
          end
      end
  end.

(** The order of events the specification asks for: whenever the
    destination is written, the source handle has been closed before. *)
Definition released_before_write (events : list event) : Prop :=
  ∀ pre text post,
    events = pre ++ EvWrite csvPath text :: post → EvClose dataPath ∈ pre.
End Monad.

End Script.

(** ** Sample data

    A runtime with three kinds of cell and a decoder that knows a few named
    streams, to run the script on concrete worlds.  Its csv writer is the
    one of CPython before 3.13. *)

Module Sample.
Import Arrow Script.

Inductive cell := Null | Int (z : Z) | Str (s : string).

(** [str] of an integer or of a string; a missing value is written as the
    empty [na_rep]. *)
Definition render_cell (c : cell) : string :=
  match c with
  | Null => EmptyString
  | Int z => str_int z
  | Str s => s
  end.

(** The pandas metadata of a stream written from a data frame whose index
    is one of its columns: the field that holds the index, and the name of
    the index. *)
Inductive stored := StoredIndex (field : string) (name : option string).

Definition numbered (fields : list string) : list (string * nat) :=
  imap (λ j name, (name, j)) fields.

(** [to_pandas] on such a stream: the field, when the schema has exactly
    one of that name, leaves the data columns and labels the rows, under
    the name of the index; otherwise the default index is used. *)
Definition restore_index (md : stored) (fields : list string) (n : nat)
    : exn + layout :=
  match md with
  | StoredIndex field name =>
      match filter (λ c : string * nat, c.1 = field) (numbered fields) with
      | [c] =>
          inr {| index_levels := [(name, IndexColumn c.2)];
                 data_columns :=
                   filter (λ c' : string * nat, c'.2 ≠ c.2) (numbered fields) |}
      | _ => inr (default_layout fields)
      end
  end.

Definition stream : Type := Arrow.schema stored * list (record_batch cell).

Definition people : stream :=
  ({| names := ["name"; "city"]; pandas_metadata := None |},
   [ {| num_rows := 2;
        columns := [[Str "Ann"; Str "Bob"]; [Str "Paris, FR"; Str "Oslo"]] |};
     {| num_rows := 1; columns := [[Str "Cy"]; [Null]] |} ]).

Definition ages : stream :=
  ({| names := ["name"; "age"]; pandas_metadata := None |},
   [ {| num_rows := 2; columns := [[Str "Ann"; Str "Bob"]; [Int 31; Int 7]] |} ]).

(** A cell that holds a line feed. *)
Definition notes : stream :=
  ({| names := ["A"; "B"]; pandas_metadata := None |},
   [ {| num_rows := 1;
        columns := [[Str ("x" +:+ str1 LF +:+ "y")]; [Str "z"]] |} ]).

(** A cell that holds a carriage return and nothing else to quote. *)
Definition carriage : stream :=
  ({| names := ["A"; "B"]; pandas_metadata := None |},
   [ {| num_rows := 1;
        columns := [[Str ("a" +:+ str1 CR +:+ "b")]; [Str "c"]] |} ]).

Definition no_rows : stream :=
  ({| names := ["A"; "B"]; pandas_metadata := None |},
   [ {| num_rows := 0; columns := [[]; []] |} ]).

(** No rows, and a column whose name holds a line feed. *)
Definition headline : stream :=
  ({| names := ["x" +:+ str1 LF +:+ "y"; "B"]; pandas_metadata := None |},
   [ {| num_rows := 0; columns := [[]; []] |} ]).

Definition one_null : stream :=
  ({| names := ["A"]; pandas_metadata := None |},
   [ {| num_rows := 1; columns := [[Null]] |} ]).

Definition one_empty : stream :=
  ({| names := ["A"]; pandas_metadata := None |},
   [ {| num_rows := 1; columns := [[Str EmptyString]] |} ]).

Definition pairs : stream :=
  ({| names := ["A"; "B"]; pandas_metadata := None |},
   [ {| num_rows := 1; columns := [[Int 1]; [Str "u"]] |};
     {| num_rows := 1; columns := [[Int 2]; [Str "v"]] |} ]).

(** Two rows and no column. *)
Definition bare : stream :=
  ({| names := []; pandas_metadata := None |},
   [ {| num_rows := 2; columns := [] |} ]).

(** Written from a data frame with the column [A] and the index [k],
    whose labels are 10 and 20. *)
Definition indexed : stream :=
  ({| names := ["A"; "k"];
      pandas_metadata := Some (StoredIndex "k" (Some "k")) |},
   [ {| num_rows := 2; columns := [[Int 1; Int 2]; [Int 10; Int 20]] |} ]).

(** Two rows announced, one array of two values and one of a single
    value: the reader rejects the batch. *)
Definition ragged : stream :=
  ({| names := ["A"; "B"]; pandas_metadata := None |},
   [ {| num_rows := 2; columns := [[Int 1; Int 2]; [Int 3]] |} ]).

Definition streams : gmap string stream :=
  list_to_map
    [("people", people); ("ages", ages); ("notes", notes);
     ("carriage", carriage); ("no_rows", no_rows); ("headline", headline);
     ("one_null", one_null); ("one_empty", one_empty); ("pairs", pairs);
     ("bare", bare); ("indexed", indexed); ("ragged", ragged)].

(** Bytes that name no stream are no IPC stream: the reader raises
    [ArrowInvalid] when it is built.  A batch whose arrays do not fit makes
    [read_all] raise [OSError]. *)
Definition decode_schema (bytes : string) : exn + Arrow.schema stored :=
  match streams !! bytes with
  | Some s => inr s.1
  | None => inl ArrowInvalid
  end.

Definition decode_batches (bytes : string) : exn + list (record_batch cell) :=
  match streams !! bytes with
  | Some s =>
      if decide (Forall (batch_ok (names s.1)) s.2) then inr s.2 else inl OSError
  | None => inl ArrowInvalid
  end.

Lemma decode_fit bytes sch batches :
  decode_schema bytes = inr sch → decode_batches bytes = inr batches →
  Forall (batch_ok (names sch)) batches.
Proof.
  unfold decode_schema, decode_batches.
  destruct (streams !! bytes) as [s|]; [|done].
  intros [= <-]. case_decide; [|done]. by intros [= <-].
Qed.

Definition runtime (p : platform) : Runtime :=
  {| value := cell;
     render := render_cell;
     metadata := stored;
     ipc_schema := decode_schema;
     ipc_batches := decode_batches;
     ipc_batches_fit := decode_fit;
     pandas_layout := restore_index;
     csv_quotes_every_break := false;
     os := p |}.

(** A world with only the source file, holding [bytes]. *)
Definition world_of (p : platform) (bytes : string) : world (H := runtime p) :=
  {| fs := {[ dataPath := bytes ]}; locked := ∅; handles := ∅; log := [] |}.

(** A world with no source file and an older destination file. *)
Definition world_without_source (p : platform) : world (H := runtime p) :=
  {| fs := {[ csvPath := "old" ]}; locked := ∅; handles := ∅; log := [] |}.

(** A world whose destination exists and cannot be written. *)
Definition locked_world (p : platform) (bytes : string) : world (H := runtime p) :=
  {| fs := {[ dataPath := bytes; csvPath := "old" ]};
     locked := {[ csvPath ]};
     handles := ∅;
     log := [] |}.

(** A world in use: other files, an older destination file, a handle left
    open by someone else and an earlier log. *)
Definition busy_world (p : platform) (bytes : string) : world (H := runtime p) :=
  {| fs := {[ dataPath := bytes; csvPath := "old"; "notes.txt" := "n" ]};
     locked := {[ "notes.txt" ]};
     handles := {[ 0 := "notes.txt" ]};
     log := [EvOpen "notes.txt"] |}.

(** The data frame of [people], and what the run on it logs before it
    writes the destination. *)
Definition people_frame : data_frame cell :=
  {| df_columns := ["name"; "city"];
     df_index := [(None, Ints [0; 1; 2]%Z)];
     df_length := 3;
     df_data := [[Str "Ann"; Str "Bob"; Str "Cy"]; [Str "Paris, FR"; Str "Oslo"; Null]] |}.

Definition people_before_write : list (event (H := runtime Posix)) :=
  [EvOpen dataPath; EvRead dataPath;
   EvPrint (ReprReader (H := runtime Posix) people.1);
   EvRead dataPath; EvPrint (ReprFrame (H := runtime Posix) people_frame)].

End Sample.

(** * Properties *)

(** ** Texts *)

Lemma str_app_assoc (a b c : string) : (a +:+ b) +:+ c = a +:+ b +:+ c.
Proof. induction a as [|x a IH]; simpl; congruence. Qed.

Lemma str_app_nil_r (a : string) : a +:+ EmptyString = a.
Proof. induction a as [|x a IH]; simpl; congruence. Qed.

Lemma str_app_eq_nil (a b : string) :
  a +:+ b = EmptyString → a = EmptyString ∧ b = EmptyString.
Proof. destruct a; simpl; [done | discriminate]. Qed.

Lemma str_int_of_nat n : str_int (Z.of_nat n) = str_nat n.
Proof. destruct n as [|n]; [done |]. simpl. by rewrite SuccNat2Pos.id_succ. Qed.

(** The decimal digits are the only characters of [str_nat n]. *)
Lemma str_nat_digits (P : ascii → bool) n :
  str_exists P "0123456789" = false → str_exists P (str_nat n) = false.
Proof.
  intros HP. cbn [str_exists] in HP.
  repeat (apply orb_false_elim in HP as [? HP]).
  assert (∀ u, str_exists P (NilEmpty.string_of_uint u) = false) as Hdigits.
  { induction u as [|u IH|u IH|u IH|u IH|u IH|u IH|u IH|u IH|u IH|u IH];
      cbn [NilEmpty.string_of_uint str_exists]; [done | ..];
      by apply orb_false_intro. }
  unfold str_nat, NilZero.string_of_uint.
  destruct (Nat.to_uint n); try apply Hdigits.
  cbn [str_exists]. by apply orb_false_intro.
Qed.

Lemma str_nat_no_break n : str_exists Csv.is_break (str_nat n) = false.
Proof. by apply str_nat_digits. Qed.

Lemma str_nat_no_LF n : str_mem LF (str_nat n) = false.
Proof.
  pose proof (str_nat_digits (Ascii.eqb LF) n eq_refl) as H.
  induction (str_nat n) as [|c s IH]; [done |].
  cbn [str_exists str_mem] in *. apply orb_false_elim in H as [-> H]. by apply IH.
Qed.

(** ** The reader undoes the writer *)

Module CsvFacts.
Import Csv.

Example writerow_plain :
  writerow (Dialect (linesep Posix) false) ["0"; "Ann"; "Oslo"]
  = "0,Ann,Oslo" +:+ str1 LF.
Proof. reflexivity. Qed.

Example writerow_windows :
  writerow (Dialect (linesep Windows) false) ["0"; "Ann"]
  = "0,Ann" +:+ String CR (str1 LF).
Proof. reflexivity. Qed.

Example writerow_quotes_comma :
  writerow (Dialect (linesep Posix) false) ["0"; "Paris, FR"]
  = "0," +:+ str1 dquote +:+ "Paris, FR" +:+ str1 dquote +:+ str1 LF.
Proof. reflexivity. Qed.

Example writerow_doubles_quote :
  writerow (Dialect (linesep Posix) false) ["6" +:+ str1 dquote]
  = str1 dquote +:+ "6" +:+ str1 dquote +:+ str1 dquote +:+ str1 dquote +:+ str1 LF.
Proof. reflexivity. Qed.

Example writerow_one_empty_field :
  writerow (Dialect (linesep Posix) false) [EmptyString]
  = str1 dquote +:+ str1 dquote +:+ str1 LF.
Proof. reflexivity. Qed.

(** A carriage return alone: left as it is by the older writer under the
    terminator LF, quoted under CRLF and by the newer writer. *)
Example writerow_bare_CR :
  writerow (Dialect (linesep Posix) false) ["0"; "a" +:+ str1 CR +:+ "b"]
  = "0,a" +:+ str1 CR +:+ "b" +:+ str1 LF.
Proof. reflexivity. Qed.

Example writerow_quoted_CR :
  writerow (Dialect (linesep Windows) false) ["0"; "a" +:+ str1 CR +:+ "b"]
  = "0," +:+ str1 dquote +:+ "a" +:+ str1 CR +:+ "b" +:+ str1 dquote
    +:+ String CR (str1 LF)
  ∧ writerow (Dialect (linesep Posix) true) ["0"; "a" +:+ str1 CR +:+ "b"]
    = "0," +:+ str1 dquote +:+ "a" +:+ str1 CR +:+ "b" +:+ str1 dquote
      +:+ str1 LF.
Proof. split; reflexivity. Qed.

Example read_quoted_fields :
  read (writerows (Dialect (linesep Windows) false)
          [[EmptyString; "a,b"]; ["0"; "x" +:+ str1 LF +:+ "y" +:+ str1 dquote]])
  = [[EmptyString; "a,b"]; ["0"; "x" +:+ str1 LF +:+ "y" +:+ str1 dquote]].
Proof. reflexivity. Qed.

Lemma run_app s a b : run s (a +:+ b) = run (run s a) b.
Proof. revert s. induction a as [|c a IH]; intros s; simpl; [done | apply IH]. Qed.

Lemma rstate_eta s : s = RState (mode s) (recs s) (rec s) (fld s).
Proof. by destruct s. Qed.

Lemma step_comma s :
  field_done (mode s) →
  step s comma = RState StartField (recs s) (rec s ++ [fld s]) EmptyString.
Proof. unfold step. by intros [-> | [-> | ->]]. Qed.

Lemma step_break s c :
  field_done (mode s) → is_break c = true →
  step s c = RState StartRecord (recs s ++ [rec s ++ [fld s]]) [] EmptyString.
Proof. unfold step. by intros [-> | [-> | ->]] ->. Qed.

Lemma run_linesep s p :
  field_done (mode s) →
  run s (linesep p)
  = RState StartRecord (recs s ++ [rec s ++ [fld s]]) [] EmptyString.
Proof.
  intros Hs. destruct p; cbn [linesep str1 run].
  - by apply step_break.
  - by rewrite (step_break s CR).
Qed.

Lemma run_quoted f :
  ∀ s, mode s = InQuoted →
    run s (double_quotes f +:+ str1 dquote)
    = RState QuoteInQuoted (recs s) (rec s) (fld s +:+ f).
Proof.
  induction f as [|c f IH]; intros s Hs.
  - cbn [double_quotes String.append str1 run]. unfold step. rewrite Hs.
    rewrite Ascii.eqb_refl. by rewrite str_app_nil_r.
  - cbn [double_quotes]. destruct (Ascii.eqb c dquote) eqn:Hc.
    + apply Ascii.eqb_eq in Hc as ->. cbn [String.append run].
      unfold step at 2. rewrite Hs, Ascii.eqb_refl.
      unfold step at 1. cbn [mode recs rec fld].
      change (is_break dquote) with false.
      change (Ascii.eqb dquote comma) with false. rewrite Ascii.eqb_refl.
      rewrite IH by done. cbn [recs rec fld].
      unfold snoc_char, str1. by rewrite str_app_assoc.
    + cbn [String.append run]. unfold step. rewrite Hs, Hc.
      rewrite IH by done. cbn [recs rec fld].
      unfold snoc_char, str1. by rewrite str_app_assoc.
Qed.




Section Dialect.
Variable d : dialect.

Lemma special_inv c :
  is_special d c = false →
  Ascii.eqb c comma = false ∧ Ascii.eqb c dquote = false.
Proof.
  unfold is_special. intros H.
  repeat (apply orb_false_elim in H as [H ?]). done.
Qed.


Lemma comma_is_special : is_special d comma = true.
Proof. done. Qed.

Lemma dquote_is_special : is_special d dquote = true.
Proof. done. Qed.

Lemma double_quotes_plain s :
  str_exists (is_special d) s = false → double_quotes s = s.
Proof.
  induction s as [|c s IH]; simpl; [done |].
  intros [Hc Hs]%orb_false_elim.
  apply special_inv in Hc as (_ & ->). by rewrite IH.
Qed.

Lemma run_plain f :
  str_exists (is_special d) f = false → str_exists is_break f = false →
  ∀ s, mode s = InField →
    run s f = RState InField (recs s) (rec s) (fld s +:+ f).
Proof.
  induction f as [|c f IH]; cbn [str_exists run]; intros Hf Hb s Hs.
  - rewrite str_app_nil_r, <- Hs. apply rstate_eta.
  - apply orb_false_elim in Hf as [Hc Hf]. apply orb_false_elim in Hb as [Hbc Hb].
    apply special_inv in Hc as [Hcomma _].
    unfold step. rewrite Hs, Hbc, Hcomma.
    rewrite IH by done. cbn [recs rec fld].
    unfold snoc_char, str1. by rewrite str_app_assoc.
Qed.

Lemma join_append_S n f q :
  join_append d (S n) f q = String comma (join_append d 0 f q).
Proof. done. Qed.

Lemma join_append_quoted f :
  str_exists (is_special d) f = true →
  join_append d 0 f false = String dquote (double_quotes f +:+ str1 dquote).
Proof. unfold join_append. simpl. by intros ->. Qed.

Lemma join_append_forced f :
  join_append d 0 f true = String dquote (double_quotes f +:+ str1 dquote).
Proof. done. Qed.

Lemma join_append_plain f :
  str_exists (is_special d) f = false → join_append d 0 f false = f.
Proof.
  unfold join_append. simpl. intros Hf. rewrite Hf. simpl.
  by rewrite str_app_nil_r, double_quotes_plain.
Qed.

Lemma join_append_nil f :
  join_append d 0 f false = EmptyString → f = EmptyString.
Proof.
  destruct (str_exists (is_special d) f) eqn:Hs.
  - by rewrite join_append_quoted by done.
  - by rewrite join_append_plain by done.
Qed.

Lemma reads_back_plain f :
  reads_back d f = true → str_exists (is_special d) f = false →
  str_exists is_break f = false.
Proof.
  unfold reads_back. intros H Hf. rewrite Hf in H. by apply negb_true_iff in H.
Qed.

(** *** A field that reads back *)

Lemma run_quoted_field f s m :
  mode s = m → m = StartField ∨ m = StartRecord →
  run s (String dquote (double_quotes f +:+ str1 dquote))
  = RState QuoteInQuoted (recs s) (if m is StartField then rec s else []) f.
Proof.
  intros Hs Hm. cbn [run].
  rewrite run_quoted; unfold step; rewrite Hs; by destruct Hm as [-> | ->].
Qed.

Lemma run_field f s :
  reads_back d f = true → mode s = StartField → fld s = EmptyString →
  ∃ m, field_done m ∧
    run s (join_append d 0 f false) = RState m (recs s) (rec s) f.
Proof.
  intros Hback Hs Hfld.
  destruct (str_exists (is_special d) f) eqn:Hf.
  - exists QuoteInQuoted. split; [unfold field_done; tauto |].
    rewrite join_append_quoted by done.
    rewrite (run_quoted_field f s StartField); by auto.
  - rewrite join_append_plain by done.
    pose proof (reads_back_plain f Hback Hf) as Hb.
    destruct f as [|c f].
    + exists StartField. split; [unfold field_done; tauto |].
      cbn [run]. rewrite <- Hs, <- Hfld. apply rstate_eta.
    + exists InField. split; [unfold field_done; tauto |].
      cbn [str_exists] in Hf, Hb.
      apply orb_false_elim in Hf as [Hc Hf]. apply orb_false_elim in Hb as [Hbc Hb].
      apply special_inv in Hc as [Hcomma Hquote].
      cbn [run]. unfold step. rewrite Hs, Hbc, Hcomma, Hquote.
      by rewrite run_plain.
Qed.

Lemma run_first_field f s :
  reads_back d f = true → mode s = StartRecord →
  join_append d 0 f false ≠ EmptyString →
  ∃ m, field_done m ∧
    run s (join_append d 0 f false) = RState m (recs s) [] f.
Proof.
  intros Hback Hs Hne.
  destruct (str_exists (is_special d) f) eqn:Hf.
  - exists QuoteInQuoted. split; [unfold field_done; tauto |].
    rewrite join_append_quoted by done.
    rewrite (run_quoted_field f s StartRecord); by auto.
  - rewrite join_append_plain in Hne |- * by done.
    pose proof (reads_back_plain f Hback Hf) as Hb.
    destruct f as [|c f]; [done |].
    exists InField. split; [unfold field_done; tauto |].
    cbn [str_exists] in Hf, Hb.
    apply orb_false_elim in Hf as [Hc Hf]. apply orb_false_elim in Hb as [Hbc Hb].
    apply special_inv in Hc as [Hcomma Hquote].
    cbn [run]. unfold step. rewrite Hs, Hbc, Hcomma, Hquote.
    by rewrite run_plain.
Qed.

Lemma join_fields_more_nil n fs :
  join_fields d (S n) fs = EmptyString → fs = [].
Proof. by destruct fs. Qed.



(** *** Physical lines *)



Section Platform.
Variable p : platform.
Hypothesis terminator : lineterminator d = linesep p.

Lemma run_more_fields fs :
  Forall (λ f, reads_back d f = true) fs →
  ∀ n s, field_done (mode s) →
    run s (join_fields d (S n) fs +:+ linesep p)
    = RState StartRecord (recs s ++ [rec s ++ fld s :: fs]) [] EmptyString.
Proof.
  induction 1 as [|f fs Hf _ IH]; intros n s Hs.
  - cbn [join_fields String.append]. by apply run_linesep.
  - cbn [join_fields]. rewrite join_append_S. cbn [String.append run].
    rewrite step_comma by done. rewrite str_app_assoc, run_app.
    destruct (run_field f (RState StartField (recs s) (rec s ++ [fld s]) EmptyString))
      as (m & Hm & ->); [done | done | done |].
    rewrite IH by done. cbn [recs rec fld]. by rewrite <- app_assoc.
Qed.

Lemma run_writerow r s :
  r ≠ [] → Forall (λ f, reads_back d f = true) r → mode s = StartRecord →
  run s (writerow d r) = RState StartRecord (recs s ++ [r]) [] EmptyString.
Proof.
  destruct r as [|f fs]; [done | intros _].
  intros [Hf Hfs]%Forall_cons Hs.
  unfold writerow. rewrite terminator. cbn [join_fields]. case_decide as Hrec.
  - destruct Hrec as [_ Hrec].
    apply str_app_eq_nil in Hrec as [->%join_append_nil ->%join_fields_more_nil].
    rewrite join_append_forced, run_app.
    rewrite (run_quoted_field EmptyString s StartRecord) by auto.
    by rewrite run_linesep by (unfold field_done; cbn; tauto).
  - rewrite str_app_assoc, run_app.
    destruct (decide (join_append d 0 f false = EmptyString)) as [Hnil|Hnil].
    + rewrite Hnil. apply join_append_nil in Hnil as ->.
      destruct fs as [|g gs].
      { exfalso. apply Hrec. simpl. split; [lia | done]. }
      apply Forall_cons in Hfs as [Hg Hgs].
      cbn [join_fields]. rewrite join_append_S. cbn [String.append run].
      unfold step at 1. rewrite Hs.
      change (is_break comma) with false.
      change (Ascii.eqb comma comma) with true. cbv iota.
      rewrite str_app_assoc, run_app.
      destruct (run_field g (RState StartField (recs s) [EmptyString] EmptyString))
        as (m & Hm & ->); [done | done | done |].
      by rewrite run_more_fields.
    + destruct (run_first_field f s) as (m & Hm & ->); [done | done | done |].
      by rewrite run_more_fields.
Qed.

Lemma run_writerows rows :
  Forall (λ r, r ≠ []) rows → Forall (Forall (λ f, reads_back d f = true)) rows →
  ∀ s, mode s = StartRecord →
    mode (run s (writerows d rows)) = StartRecord
    ∧ recs (run s (writerows d rows)) = recs s ++ rows.
Proof.
  induction 1 as [|r rows Hr _ IH]; intros Hback s Hs; cbn [writerows run].
  - by rewrite app_nil_r.
  - apply Forall_cons in Hback as [Hrb Hback].
    rewrite run_app, run_writerow by done.
    destruct (IH Hback (RState StartRecord (recs s ++ [r]) [] EmptyString))
      as [Hmode Hrecs]; [done |].
    split; [done |]. rewrite Hrecs. cbn [recs]. by rewrite <- app_assoc.
Qed.

(** Rows that are not empty and whose line breaks are quoted are read back
    as they were written. *)
Lemma read_written rows :
  Forall (λ r, r ≠ []) rows → Forall (Forall (λ f, reads_back d f = true)) rows →
  read (writerows d rows) = rows.
Proof.
  intros Hne Hback. unfold read, finish.
  destruct (run_writerows rows Hne Hback start) as [-> ->]; done.
Qed.



(** *** When every field reads back *)

Lemma LF_is_special : is_special d LF = true.
Proof.
  unfold is_special. rewrite terminator.
  destruct p; cbn; by rewrite !orb_true_r.
Qed.

Lemma reads_back_no_CR f : str_mem CR f = false → reads_back d f = true.
Proof.
  unfold reads_back. induction f as [|c f IH]; [done |].
  cbn [str_mem str_exists]. intros [Hc Hf]%orb_false_elim.
  destruct (is_special d c) eqn:Hs; [done |].
  assert (is_break c = false) as ->.
  { unfold is_break. destruct (Ascii.eqb c LF) eqn:HLF.
    - apply Ascii.eqb_eq in HLF as ->. by rewrite LF_is_special in Hs.
    - by rewrite Ascii.eqb_sym, Hc. }
  by apply IH.
Qed.

Lemma reads_back_always f :
  quote_every_break d = true ∨ p = Windows → reads_back d f = true.
Proof.
  intros Hall. unfold reads_back. induction f as [|c f IH]; [done |].
  cbn [str_exists].
  destruct (is_special d c) eqn:Hs; [done |].
  assert (is_break c = false) as ->; [|done].
  destruct (is_break c) eqn:Hb; [|done].
  unfold is_special in Hs. rewrite terminator in Hs.
  unfold is_break in Hb.
  destruct Hall as [Hq | ->].
  - rewrite Hq, Hb in Hs. by rewrite orb_true_r in Hs.
  - apply orb_true_iff in Hb as [Hb | Hb]; cbn in Hs; rewrite Hb in Hs;
      by rewrite ?orb_true_r in Hs.
Qed.



Lemma reads_back_str_nat n : reads_back d (str_nat n) = true.
Proof.
  unfold reads_back. by rewrite str_nat_no_break, orb_true_r.
Qed.

(** *** A quoted field is found whatever else the text holds *)

Lemma recs_step s c : ∃ more, recs (step s c) = recs s ++ more.
Proof.
  unfold step. repeat case_match; cbn [recs];
    first [ by exists []; rewrite app_nil_r | by eexists ].
Qed.

Lemma recs_run t : ∀ s, ∃ more, recs (run s t) = recs s ++ more.
Proof.
  induction t as [|c t IH]; intros s; cbn [run].
  - exists []. by rewrite app_nil_r.
  - destruct (IH (step s c)) as [more ->].
    destruct (recs_step s c) as [more' ->].
    exists (more' ++ more). by rewrite app_assoc.
Qed.

















End Platform.
End Dialect.
End CsvFacts.

(** ** From record batches to the rows of the data frame *)

Module ArrowFacts.
Import Arrow.

Section Rows.
Context {value metadata : Type} (render : value → string).
Implicit Types (b : record_batch value) (cols : list (list value)).
Implicit Types (batches : list (record_batch value)).
Implicit Types (sch : schema metadata) (L : layout).

Lemma frame_columns_length fields batches :
  length (frame_columns fields batches) = length fields.
Proof.
  unfold frame_columns, chunked. by rewrite length_fmap, length_imap.
Qed.


Lemma frame_columns_cons fields b batches :
  length (columns b) = length fields →
  frame_columns fields (b :: batches)
  = zip_with app (columns b) (frame_columns fields batches).
Proof.
  intros Hlen. apply list_eq. intros j.
  unfold frame_columns, chunked.
  rewrite lookup_zip_with, !list_lookup_fmap, !list_lookup_imap.
  destruct (fields !! j) as [name|] eqn:Hj; simpl.
  - destruct (lookup_lt_is_Some_2 (columns b) j) as [c Hc].
    { rewrite Hlen. by eapply lookup_lt_Some. }
    by rewrite Hc.
  - apply lookup_ge_None in Hj. rewrite <- Hlen in Hj.
    apply lookup_ge_None in Hj. by rewrite Hj.
Qed.

Lemma cell_text_app_l pos (c r : list value) :
  pos < length c → cell_text render pos (c ++ r) = cell_text render pos c.
Proof. intros Hpos. unfold cell_text. by rewrite lookup_app_l. Qed.

Lemma cell_text_app_r k (c r : list value) :
  cell_text render (length c + k) (c ++ r) = cell_text render k r.
Proof.
  unfold cell_text. rewrite lookup_app_r by lia.
  by replace (length c + k - length c) with k by lia.
Qed.

Lemma row_text_zip_l n pos cols :
  pos < n → Forall (λ c, length c = n) cols →
  ∀ rest, length rest = length cols →
    cell_text render pos <$> zip_with app cols rest
    = cell_text render pos <$> cols.
Proof.
  intros Hpos. induction 1 as [|c cols Hc _ IH]; intros [|r rest] Hlen;
    simplify_eq/=; [done |].
  rewrite cell_text_app_l by lia. by rewrite IH.
Qed.

Lemma row_text_zip_r n k cols :
  Forall (λ c, length c = n) cols →
  ∀ rest, length rest = length cols →
    cell_text render (n + k) <$> zip_with app cols rest
    = cell_text render k <$> rest.
Proof.
  induction 1 as [|c cols Hc _ IH]; intros [|r rest] Hlen;
    simplify_eq/=; [done |].
  rewrite cell_text_app_r. by rewrite IH.
Qed.

Lemma row_text_values pos cols :
  Forall (λ c, pos < length c) cols →
  cell_text render pos <$> cols
  = render <$> omap (λ c : list value, c !! pos) cols.
Proof.
  induction 1 as [|c cols Hc _ IH]; csimpl; [done |].
  destruct (lookup_lt_is_Some_2 c pos Hc) as [v Hv].
  rewrite IH, Hv. csimpl. unfold cell_text. by rewrite Hv.
Qed.

Lemma batch_rows_text fields b :
  batch_ok fields b →
  fmap render <$> batch_rows b
  = (λ pos, cell_text render pos <$> columns b) <$> seq 0 (num_rows b).
Proof.
  intros [_ Hcols]. unfold batch_rows. rewrite <- list_fmap_compose.
  apply list_fmap_ext. intros i pos [-> Hpos]%lookup_seq. simpl.
  symmetry. apply row_text_values.
  eapply Forall_impl; [exact Hcols |]. simpl. intros c ->. done.
Qed.

(** The rows of the concatenated columns are the rows of the batches,
    batch after batch. *)
Lemma frame_rows_stream fields batches :
  Forall (batch_ok fields) batches →
  (λ pos, cell_text render pos <$> frame_columns fields batches)
    <$> seq 0 (sum_list (num_rows <$> batches))
  = fmap render <$> stream_rows batches.
Proof.
  induction 1 as [|b batches Hb _ IH]; [done |].
  unfold stream_rows in *. csimpl.
  rewrite seq_app, !fmap_app, <- IH, (batch_rows_text fields) by done.
  destruct Hb as [Hlen Hcols].
  rewrite frame_columns_cons by done. f_equal.
  - apply list_fmap_ext. intros i pos [-> Hpos]%lookup_seq. simpl.
    apply (row_text_zip_l (num_rows b)); [done | done |].
    by rewrite frame_columns_length.
  - replace (0 + num_rows b) with (num_rows b + 0) by lia.
    rewrite <- (fmap_add_seq (num_rows b) 0).
    rewrite <- list_fmap_compose. apply list_fmap_ext. intros i k _. simpl.
    apply row_text_zip_r; [done |]. by rewrite frame_columns_length.
Qed.

Lemma stream_rows_length batches :
  length (stream_rows batches) = sum_list (num_rows <$> batches).
Proof.
  unfold stream_rows. induction batches as [|b batches IH]; csimpl; [done |].
  rewrite length_app, IH. unfold batch_rows.
  by rewrite length_fmap, length_seq.
Qed.

Lemma stream_rows_width fields batches :
  Forall (batch_ok fields) batches →
  Forall (λ row, length row = length fields) (stream_rows batches).
Proof.
  unfold stream_rows. induction 1 as [|b batches [Hlen Hcols] _ IH]; csimpl.
  - constructor.
  - apply Forall_app. split; [|done].
    unfold batch_rows. apply Forall_fmap, Forall_forall.
    intros pos [_ Hpos]%elem_of_seq. simpl. rewrite <- Hlen.
    clear Hlen. induction Hcols as [|c cols Hc _ IHc]; csimpl; [done |].
    destruct (lookup_lt_is_Some_2 c pos) as [v Hv]; [lia |].
    rewrite Hv. csimpl. by rewrite IHc.
Qed.




(** *** Columns of the table, cells of the rows *)

Lemma column_from_batches sch batches j :
  column (from_batches sch batches) j
  = default [] (frame_columns (names sch) batches !! j).
Proof.
  unfold column, frame_columns. cbn [from_batches t_columns].
  rewrite list_lookup_fmap. by destruct (chunked (names sch) batches !! j).
Qed.

(** The cell at column [j] of row [p] of the table is cell [j] of row
    [p] of the stream; both are missing when the stream has no column
    [j]. *)
Lemma cell_at fields batches p row j :
  Forall (batch_ok fields) batches →
  stream_rows batches !! p = Some row →
  cell_text render p (default [] (frame_columns fields batches !! j))
  = from_option render EmptyString (row !! j).
Proof.
  intros Hok Hrow.
  pose proof (frame_rows_stream fields batches Hok) as Hrows.
  apply (f_equal (λ l, l !! p)) in Hrows.
  rewrite !list_lookup_fmap, Hrow in Hrows.
  rewrite lookup_seq_lt in Hrows.
  2: { rewrite <- stream_rows_length. by eapply lookup_lt_Some. }
  cbn in Hrows. injection Hrows as Hrows.
  apply (f_equal (λ l, l !! j)) in Hrows.
  rewrite !list_lookup_fmap in Hrows.
  destruct (frame_columns fields batches !! j) as [c|],
    (row !! j) as [v|]; by simplify_eq/=.
Qed.

Lemma range_labels_lookup first step n p :
  p < n →
  range_labels first step n !! p = Some (first + step * Z.of_nat p)%Z.
Proof.
  intros Hp. unfold range_labels.
  by rewrite list_lookup_fmap, lookup_seq_lt.
Qed.

(** The row to_csv writes at position [p] of the frame is what the layout
    makes of row [p] of the stream. *)
Lemma data_row_layout sch batches L p row :
  Forall (batch_ok (names sch)) batches →
  stream_rows batches !! p = Some row →
  data_row render (apply_layout (from_batches sch batches) L) p
  = row_fields render L p row.
Proof.
  intros Hok Hrow. unfold data_row, row_fields.
  cbn [apply_layout df_index df_data]. f_equal.
  - rewrite <- list_fmap_compose. apply list_fmap_ext.
    intros i [name [j | first step]] _;
      cbn [compose fst snd build_level level_text source_text].
    + rewrite column_from_batches. by apply cell_at.
    + cbn [from_batches t_num_rows]. rewrite range_labels_lookup; [done |].
      rewrite <- stream_rows_length. by eapply lookup_lt_Some.
  - rewrite <- list_fmap_compose. apply list_fmap_ext.
    intros i [name j] _; cbn [compose fst snd].
    rewrite column_from_batches. by apply cell_at.
Qed.

Lemma header_row_layout sch batches L :
  header_row (apply_layout (from_batches sch batches) L) = header_of L.
Proof.
  unfold header_row, header_of. cbn [apply_layout df_index df_columns].
  by rewrite <- list_fmap_compose.
Qed.

Lemma data_rows_layout sch batches L :
  Forall (batch_ok (names sch)) batches →
  data_row render (apply_layout (from_batches sch batches) L)
    <$> seq 0 (sum_list (num_rows <$> batches))
  = imap (row_fields render L) (stream_rows batches).
Proof.
  intros Hok. apply list_eq. intros p.
  rewrite list_lookup_fmap, list_lookup_imap.
  destruct (stream_rows batches !! p) as [row|] eqn:Hrow.
  - rewrite lookup_seq_lt.
    2: { rewrite <- stream_rows_length. by eapply lookup_lt_Some. }
    cbn. f_equal. by apply data_row_layout.
  - apply lookup_ge_None in Hrow. rewrite stream_rows_length in Hrow.
    by rewrite lookup_seq_ge.
Qed.

(** What to_csv hands to the writer, read off the stream. *)
Lemma csv_rows_layout sch batches L :
  Forall (batch_ok (names sch)) batches →
  csv_rows render (apply_layout (from_batches sch batches) L)
  = header_of L :: imap (row_fields render L) (stream_rows batches).
Proof.
  intros Hok. unfold csv_rows. rewrite header_row_layout.
  cbn [apply_layout df_length from_batches t_num_rows].
  by rewrite (data_rows_layout sch batches L).
Qed.

(** *** The default layout *)

Lemma header_default fields :
  header_of (default_layout fields) = EmptyString :: fields.
Proof.
  unfold header_of. cbn. f_equal.
  apply list_eq. intros j. rewrite list_lookup_fmap, list_lookup_imap.
  by destruct (fields !! j).
Qed.

Lemma row_fields_default fields p row :
  length row = length fields →
  row_fields render (default_layout fields) p row = str_nat p :: (render <$> row).
Proof.
  intros Hlen. unfold row_fields. cbn. f_equal.
  - rewrite <- str_int_of_nat. f_equal. lia.
  - apply list_eq. intros j.
    rewrite !list_lookup_fmap, list_lookup_imap.
    destruct (fields !! j) as [name|] eqn:Hj; cbn.
    + destruct (lookup_lt_is_Some_2 row j) as [v Hv].
      { rewrite Hlen. by eapply lookup_lt_Some. }
      by rewrite Hv.
    + apply lookup_ge_None in Hj. rewrite <- Hlen in Hj.
      apply lookup_ge_None in Hj. by rewrite Hj.
Qed.

Lemma rows_default fields batches :
  Forall (batch_ok fields) batches →
  imap (row_fields render (default_layout fields)) (stream_rows batches)
  = imap (λ i row, str_nat i :: (render <$> row)) (stream_rows batches).
Proof.
  intros Hok. apply imap_ext. intros i row Hrow. cbn.
  apply row_fields_default.
  pose proof (stream_rows_width fields batches Hok) as Hwidth.
  rewrite Forall_lookup in Hwidth. by apply (Hwidth i).
Qed.


End Rows.

End ArrowFacts.

(** ** The script: every way a run can go *)

Module ScriptFacts.
Import Arrow Script.

Section Runs.
Context `{Runtime}.
Implicit Types (w : world) (batches : list (record_batch value)).
Implicit Types (sch : Arrow.schema metadata).

Lemma fresh_handle w : handles w !! fresh (dom (handles w)) = None.
Proof. apply not_elem_of_dom, is_fresh. Qed.

Lemma finished_nothing w : finished w None [] = w.
Proof. destruct w. unfold finished. simpl. by rewrite app_nil_r. Qed.

Ltac run_script :=
  unfold frame_of in *;
  unfold main, with_, open_rb, convert, RecordBatchStreamReader, read_all,
    read_handle, print, emit, Script.to_pandas, returned, to_csv, raise, close,
    mbind, M_bind, mret, M_ret;
  repeat first
    [ progress simpl
    | rewrite lookup_insert_eq
    | match goal with
      | E : ?x = _ |- context [?x] => rewrite E
      end
    | rewrite decide_True by done
    | rewrite decide_False by done ];
  unfold finished, logged, with_handles, with_file; simpl;
  rewrite ?delete_insert_id by apply fresh_handle;
  rewrite <- ?app_assoc; try done.

Lemma main_missing w :
  fs w !! dataPath = None → main w = (inl FileNotFoundError, w).
Proof. intros Hfs. unfold main, with_, open_rb. by rewrite Hfs. Qed.

Lemma main_bad_schema w bytes e :
  fs w !! dataPath = Some bytes → ipc_schema bytes = inl e →
  main w = (inl e,
            finished w None [EvOpen dataPath; EvRead dataPath; EvClose dataPath]).
Proof. intros Hfs Hsch. run_script. Qed.

Lemma main_bad_batches w bytes sch e :
  fs w !! dataPath = Some bytes → ipc_schema bytes = inr sch →
  ipc_batches bytes = inl e →
  main w = (inl e,
            finished w None
              [EvOpen dataPath; EvRead dataPath; EvPrint (ReprReader sch);
               EvRead dataPath; EvClose dataPath]).
Proof. intros Hfs Hsch Hbs. run_script. Qed.

Lemma main_bad_frame w sch batches e :
  archive_at w sch batches → frame_of sch batches = inl e →
  main w = (inl e,
            finished w None
              [EvOpen dataPath; EvRead dataPath; EvPrint (ReprReader sch);
               EvRead dataPath; EvClose dataPath]).
Proof. intros (bytes & Hfs & Hsch & Hbs) Hdf. run_script. Qed.

Lemma main_locked w sch batches df :
  archive_at w sch batches → frame_of sch batches = inr df →
  csvPath ∈ locked w →
  main w = (inl PermissionError,
            finished w None
              [EvOpen dataPath; EvRead dataPath; EvPrint (ReprReader sch);
               EvRead dataPath; EvPrint (ReprFrame df); EvClose dataPath]).
Proof. intros (bytes & Hfs & Hsch & Hbs) Hdf Hw. run_script. Qed.

Lemma main_ok w sch batches df :
  archive_at w sch batches → frame_of sch batches = inr df →
  csvPath ∉ locked w →
  main w = (inr (),
            finished w (Some (csv_text df))
              [EvOpen dataPath; EvRead dataPath; EvPrint (ReprReader sch);
               EvRead dataPath; EvPrint (ReprFrame df);
               EvWrite csvPath (csv_text df); EvClose dataPath]).
Proof. intros (bytes & Hfs & Hsch & Hbs) Hdf Hw. run_script. Qed.

(** The script does what [behaviour] tabulates. *)
Lemma main_behaviour w :
  main w =
    let '(r, text, events) :=
      behaviour (fs w !! dataPath) (bool_decide (csvPath ∈ locked w)) in
    (r, finished w text events).
Proof.
  unfold behaviour.
  destruct (fs w !! dataPath) as [bytes|] eqn:Hfs.
  2: { by rewrite main_missing, finished_nothing. }
  destruct (ipc_schema bytes) as [e|sch] eqn:Hsch.
  { by apply main_bad_schema with bytes. }
  destruct (ipc_batches bytes) as [e|batches] eqn:Hbs.
  { by apply main_bad_batches with bytes. }
  assert (archive_at w sch batches) as Harch by (by exists bytes).
  destruct (frame_of sch batches) as [e|df] eqn:Hdf.
  { by apply main_bad_frame with batches. }
  case_bool_decide as Hw.
  - by apply main_locked with batches.
  - by apply main_ok with batches.
Qed.

Lemma trace_behaviour w :
  trace w = (behaviour (fs w !! dataPath) (bool_decide (csvPath ∈ locked w))).2.
Proof.
  unfold trace. rewrite main_behaviour.
  destruct (behaviour _ _) as [[r text] events]. simpl.
  by rewrite drop_app_length.
Qed.

Lemma archive_fits w sch batches :
  archive_at w sch batches → Forall (batch_ok (names sch)) batches.
Proof. intros (bytes & _ & Hsch & Hbs). by eapply ipc_batches_fit. Qed.

Lemma frame_of_layout sch batches L :
  layout_of sch batches = inr L →
  frame_of sch batches = inr (apply_layout (from_batches sch batches) L).
Proof. unfold layout_of, frame_of, Arrow.to_pandas. by intros ->. Qed.

Lemma layout_of_plain sch batches :
  plain sch → layout_of sch batches = inr (default_layout (names sch)).
Proof. unfold plain, layout_of, Arrow.layout_of. cbn. by intros ->. Qed.

Lemma frame_of_inv sch batches df :
  frame_of sch batches = inr df →
  ∃ L, layout_of sch batches = inr L
       ∧ df = apply_layout (from_batches sch batches) L.
Proof.
  unfold layout_of, frame_of, Arrow.to_pandas.
  destruct (Arrow.layout_of _ _) as [e|L]; [done |].
  intros [= <-]. by exists L.
Qed.

(** The text to_csv writes for a stream laid out by [L]. *)
Lemma csv_text_grid sch batches L :
  Forall (batch_ok (names sch)) batches →
  csv_text (apply_layout (from_batches sch batches) L)
  = Csv.writerows dialect (grid L batches).
Proof.
  intros Hok. unfold csv_text, to_csv_text, grid. cbn [Csv.writerows].
  rewrite ArrowFacts.header_row_layout.
  cbn [apply_layout df_length from_batches t_num_rows].
  by rewrite (ArrowFacts.data_rows_layout render sch batches L).
Qed.

Lemma grid_plain sch batches :
  Forall (batch_ok (names sch)) batches →
  grid (default_layout (names sch)) batches
  = (EmptyString :: names sch)
    :: imap (λ i row, str_nat i :: (render <$> row)) (stream_rows batches).
Proof.
  intros Hok. unfold grid.
  by rewrite ArrowFacts.header_default, ArrowFacts.rows_default.
Qed.

(** A run on a well-formed stream whose table converts, with a writable
    destination, succeeds and leaves the text of the grid. *)
Lemma output_ok w sch batches L :
  archive_at w sch batches → layout_of sch batches = inr L →
  csvPath ∉ locked w →
  outcome w = inr ()
  ∧ output w = Some (Csv.writerows dialect (grid L batches)).
Proof.
  intros Harch HL Hw. unfold outcome, output.
  rewrite (main_ok w sch batches _ Harch (frame_of_layout _ _ _ HL) Hw).
  simpl. rewrite lookup_insert_eq.
  by rewrite csv_text_grid by (by eapply archive_fits).
Qed.

Lemma grid_nonempty L batches : Forall (λ r, r ≠ []) (grid L batches).
Proof.
  assert (effective_levels L ≠ []) as Hne.
  { unfold effective_levels. by destruct (index_levels L). }
  unfold grid. constructor.
  - unfold header_of. intros Hnil. apply app_eq_nil in Hnil as [Hnil _].
    by apply fmap_nil_inv in Hnil.
  - apply Forall_forall. intros r (i & row & -> & _)%elem_of_lookup_imap.
    unfold row_fields. intros Hnil. apply app_eq_nil in Hnil as [Hnil _].
    by apply fmap_nil_inv in Hnil.
Qed.

(** Read back, the text is the grid, when the line breaks of the grid
    are quoted. *)
Lemma read_grid L batches :
  breaks_quoted (grid L batches) →
  Csv.read (Csv.writerows dialect (grid L batches)) = grid L batches.
Proof.
  intros Hback. apply (CsvFacts.read_written dialect os); [done | | done].
  apply grid_nonempty.
Qed.

(** For a stream without pandas metadata the grid reads back when the
    column names and the cell texts do. *)
Lemma plain_breaks_quoted sch batches :
  texts_read_back sch batches →
  breaks_quoted
    ((EmptyString :: names sch)
     :: imap (λ i row, str_nat i :: (render <$> row)) (stream_rows batches)).
Proof.
  intros [Hnames Hcells]. constructor.
  - by constructor.
  - apply Forall_forall. intros r (i & row & -> & Hrow)%elem_of_lookup_imap.
    constructor.
    + by apply (CsvFacts.reads_back_str_nat dialect).
    + apply Forall_fmap. rewrite Forall_lookup in Hcells. by apply (Hcells i).
Qed.

Lemma breaks_quoted_always rows :
  csv_quotes_every_break = true ∨ os = Windows → breaks_quoted rows.
Proof.
  intros Hall. apply Forall_forall. intros r _. apply Forall_forall. intros f _.
  by apply (CsvFacts.reads_back_always dialect os).
Qed.
End Runs.
End ScriptFacts.

(** ** The properties of the conversion *)

Section Conversion.
Import Arrow Script.
Context `{Runtime}.
Implicit Types (w : world) (batches : list (record_batch value)).
Implicit Types (sch : Arrow.schema metadata) (L : layout).


Lemma writerows_header (h : list string) rows :
  Csv.writerows dialect (h :: rows)
  = Csv.writerow dialect h +:+ Csv.writerows dialect rows.
Proof. done. Qed.

Lemma plain_output w sch batches :
  archive_at w sch batches → plain sch → csvPath ∉ locked w →
  outcome w = inr ()
  ∧ output w
    = Some (Csv.writerows dialect
              ((EmptyString :: names sch)
               :: imap (λ i row, str_nat i :: (render <$> row))
                    (stream_rows batches))).
Proof.
  intros Harch Hplain Hw.
  pose proof (ScriptFacts.archive_fits w sch batches Harch) as Hok.
  rewrite <- (ScriptFacts.grid_plain sch batches Hok).
  apply (ScriptFacts.output_ok w sch batches); [done | | done].
  by apply ScriptFacts.layout_of_plain.
Qed.

Lemma plain_read sch batches :
  Forall (batch_ok (names sch)) batches → texts_read_back sch batches →
  Csv.read
    (Csv.writerows dialect
       ((EmptyString :: names sch)
        :: imap (λ i row, str_nat i :: (render <$> row)) (stream_rows batches)))
  = (EmptyString :: names sch)
    :: imap (λ i row, str_nat i :: (render <$> row)) (stream_rows batches).
Proof.
  intros Hok Hback. rewrite <- (ScriptFacts.grid_plain sch batches Hok).
  apply ScriptFacts.read_grid. rewrite ScriptFacts.grid_plain by done.
  by apply ScriptFacts.plain_breaks_quoted.
Qed.



(** C3, as amended.  Whenever a run writes the destination, the source has
    been opened and read twice before (the schema, then all batches), the
    handle has not been closed yet, and closing it is the one thing that
    follows the write; after the run the open handles are those of before. *)
Theorem write_inside_with_block w pre text post :
  trace w = pre ++ EvWrite csvPath text :: post →
  (∃ sch df,
      pre = [EvOpen dataPath; EvRead dataPath; EvPrint (ReprReader sch);
             EvRead dataPath; EvPrint (ReprFrame df)])
  ∧ (EvClose dataPath ∉ pre)
  ∧ post = [EvClose dataPath]
  ∧ handles (main w).2 = handles w.
Proof.
  intros Heq.
  assert (handles (main w).2 = handles w) as Hclosed.
  { rewrite ScriptFacts.main_behaviour.
    by destruct (behaviour _ _) as [[r t] events]. }
  enough ((∃ sch df,
              pre = [EvOpen dataPath; EvRead dataPath; EvPrint (ReprReader sch);
                     EvRead dataPath; EvPrint (ReprFrame df)])
          ∧ (EvClose dataPath ∉ pre)
          ∧ post = [EvClose dataPath]) as (Hpre & Hopen & Hpost) by done.
  revert Heq.
  rewrite ScriptFacts.trace_behaviour. unfold behaviour.
  repeat case_match; simpl; intros Heq;
    repeat match type of Heq with
      | [] = ?l ++ _ => destruct l; discriminate Heq
      | _ :: _ = ?l ++ _ =>
          destruct l as [|? l]; simpl in Heq;
          [ try discriminate Heq | injection Heq as <- Heq ]
      end.
  injection Heq as <- <-.
  split; [by eauto |]. split; [|done].
  intros Hin.
  repeat (apply elem_of_cons in Hin as [Hin | Hin]; [discriminate Hin |]).
  by apply elem_of_nil in Hin.
Qed.

(** C4. Without a file at the source path the run ends with
    [FileNotFoundError] and leaves the world as it was: nothing is opened,
    printed or written, and the destination is what it was before, present
    or not. *)
Theorem missing_source_fails w :
  fs w !! dataPath = None →
  outcome w = inl FileNotFoundError
  ∧ (main w).2 = w
  ∧ output w = fs w !! csvPath.
Proof.
  intros Hfs. unfold outcome, output. by rewrite ScriptFacts.main_missing.
Qed.






(** C10. Two runs that find the same bytes at the source path, in worlds
    that agree on whether the destination can be written and are otherwise
    arbitrary (other files, an older destination file, open handles, earlier
    log), end the same way and append the same events; when they succeed
    they leave the same text at the destination. *)
Theorem output_determined_by_source w1 w2 :
  fs w1 !! dataPath = fs w2 !! dataPath →
  (csvPath ∈ locked w1 ↔ csvPath ∈ locked w2) →
  outcome w1 = outcome w2
  ∧ trace w1 = trace w2
  ∧ (outcome w1 = inr () →
     ∃ text, output w1 = Some text ∧ output w2 = Some text).
Proof.
  intros Hsrc Hlocked.
  assert (bool_decide (csvPath ∈ locked w1) = bool_decide (csvPath ∈ locked w2))
    as Hdec by (by apply bool_decide_ext).
  unfold outcome, output. rewrite !ScriptFacts.trace_behaviour.
  rewrite (ScriptFacts.main_behaviour w1), (ScriptFacts.main_behaviour w2).
  rewrite Hsrc, Hdec.
  destruct (behaviour _ _) as [[r text] events] eqn:Hb. simpl.
  split; [done |]. split; [done |]. intros ->.
  unfold behaviour in Hb. repeat case_match; simplify_eq/=.
  eexists. by rewrite !lookup_insert_eq.
Qed.
End Conversion.

(** ** The script on the sample worlds *)

Section Samples.
Import Arrow Script Sample.

Lemma sample_source p bytes : fs (world_of p bytes) !! dataPath = Some bytes.
Proof. apply lookup_singleton_eq. Qed.

Lemma sample_archive p bytes sch batches :
  decode_schema bytes = inr sch → decode_batches bytes = inr batches →
  archive_at (H := runtime p) (world_of p bytes) sch batches.
Proof. intros Hsch Hbs. exists bytes. split; [apply sample_source | done]. Qed.

Lemma sample_locked_archive p bytes sch batches :
  decode_schema bytes = inr sch → decode_batches bytes = inr batches →
  archive_at (H := runtime p) (locked_world p bytes) sch batches.
Proof. intros Hsch Hbs. by exists bytes. Qed.

Lemma sample_writable p bytes : csvPath ∉ locked (world_of p bytes).
Proof. apply not_elem_of_empty. Qed.




Lemma pairs_ok p : archive_at (H := runtime p) (world_of p "pairs") pairs.1 pairs.2.
Proof. apply (sample_archive p "pairs"); reflexivity. Qed.

Lemma pairs_locked_ok p :
  archive_at (H := runtime p) (locked_world p "pairs") pairs.1 pairs.2.
Proof.
  apply (sample_locked_archive p "pairs"); reflexivity.
Qed.

Lemma bare_ok p : archive_at (H := runtime p) (world_of p "bare") bare.1 bare.2.
Proof. apply (sample_archive p "bare"); reflexivity. Qed.





Lemma pairs_read_back p : texts_read_back (H := runtime p) pairs.1 pairs.2.
Proof. destruct p; split; vm_compute; repeat constructor. Qed.
(** The reader's verdicts on the sample streams it rejects. *)
Example junk_is_no_stream :
  outcome (world_of Posix "junk") = inl ArrowInvalid
  ∧ trace (world_of Posix "junk")
    = [EvOpen dataPath; EvRead dataPath; EvClose dataPath].
Proof. split; vm_compute; reflexivity. Qed.

Example ragged_batch_rejected :
  outcome (world_of Posix "ragged") = inl OSError
  ∧ output (world_of Posix "ragged") = None.
Proof. split; vm_compute; reflexivity. Qed.

(** A carriage return alone in a cell: the older writer leaves the field
    unquoted under the terminator of Posix and the reader finds three
    records for the one row; under the terminator of Windows the field is
    quoted and read back. *)
Example carriage_return_splits_record :
  ∃ text,
    output (world_of Posix "carriage") = Some text
    ∧ text
      = ",A,B" +:+ str1 LF +:+ "0,a" +:+ str1 CR +:+ "b,c" +:+ str1 LF
    ∧ Csv.read text = [[""; "A"; "B"]; ["0"; "a"]; ["b"; "c"]]
    ∧ ¬ texts_read_back (H := runtime Posix) carriage.1 carriage.2.
Proof.
  eexists. split; [vm_compute; reflexivity |].
  split; [vm_compute; reflexivity |]. split; [vm_compute; reflexivity |].
  intros [_ Hcells]. vm_compute in Hcells.
  apply Forall_cons in Hcells as [Hrow _].
  apply Forall_cons in Hrow as [Hcell _]. discriminate Hcell.
Qed.

Example carriage_return_quoted_on_windows :
  ∃ text,
    output (world_of Windows "carriage") = Some text
    ∧ Csv.read text
      = [[""; "A"; "B"]; ["0"; "a" +:+ str1 CR +:+ "b"; "c"]].
Proof. eexists. split; vm_compute; reflexivity. Qed.
End Samples.





(** C3 as stated fails: on the sample stream the destination is written
    while the source handle is still open; no close comes before the
    write. *)
Lemma write_precedes_close :
  ¬ Script.released_before_write (Script.trace (Sample.world_of Posix "people")).
Proof.
  intros Hrel.
  specialize (Hrel Sample.people_before_write
    (Script.csv_text (H := Sample.runtime Posix) Sample.people_frame)
    [Script.EvClose Script.dataPath]).
  assert (Script.EvClose Script.dataPath ∈ Sample.people_before_write) as Hin
    by (apply Hrel; vm_compute; reflexivity).
  unfold Sample.people_before_write in Hin.
  repeat (apply elem_of_cons in Hin as [Hin | Hin]; [discriminate Hin |]).
  by apply elem_of_nil in Hin.
Qed.

Lemma write_inside_with_block_witness :
  (∃ sch df,
      Sample.people_before_write
      = [Script.EvOpen Script.dataPath; Script.EvRead Script.dataPath;
         Script.EvPrint (Script.ReprReader sch);
         Script.EvRead Script.dataPath; Script.EvPrint (Script.ReprFrame df)])
  ∧ (Script.EvClose Script.dataPath ∉ Sample.people_before_write)
  ∧ [Script.EvClose (H := Sample.runtime Posix) Script.dataPath]
    = [Script.EvClose Script.dataPath]
  ∧ Script.handles (Script.main (Sample.world_of Posix "people")).2 = ∅.
Proof.
  apply (write_inside_with_block (H := Sample.runtime Posix)
           (Sample.world_of Posix "people") Sample.people_before_write
           (Script.csv_text (H := Sample.runtime Posix) Sample.people_frame)).
  vm_compute. reflexivity.
Defined.

Lemma missing_source_fails_witness :
  Script.outcome (Sample.world_without_source Posix) = inl FileNotFoundError
  ∧ (Script.main (Sample.world_without_source Posix)).2 = Sample.world_without_source Posix
  ∧ Script.output (Sample.world_without_source Posix) = Some "old".
Proof.
  apply (missing_source_fails (H := Sample.runtime Posix)
           (Sample.world_without_source Posix)).
  vm_compute. reflexivity.
Defined.









Lemma output_determined_by_source_witness :
  Script.outcome (Sample.world_of Posix "people") = Script.outcome (Sample.busy_world Posix "people")
  ∧ Script.trace (Sample.world_of Posix "people") = Script.trace (Sample.busy_world Posix "people")
  ∧ (Script.outcome (Sample.world_of Posix "people") = inr () →
     ∃ text, Script.output (Sample.world_of Posix "people") = Some text
             ∧ Script.output (Sample.busy_world Posix "people") = Some text).
Proof.
  apply (output_determined_by_source (H := Sample.runtime Posix)
           (Sample.world_of Posix "people") (Sample.busy_world Posix "people")).
  - vm_compute. reflexivity.
  - split; intros Hin.
    + by apply not_elem_of_empty in Hin.
    + change (Script.csvPath ∈ ({[ "notes.txt" ]} : gset string)) in Hin.
      apply elem_of_singleton in Hin. discriminate Hin.
Defined.

(** ** Beyond the stated properties: failures, resources, edges *)

Section Robustness.
Import Arrow Script.
Context `{Runtime}.
Implicit Types (w : world) (batches : list (record_batch value)).
Implicit Types (sch : Arrow.schema metadata) (L : layout).

Ltac by_cases_of_run Hb :=
  unfold behaviour in Hb; repeat case_match; simplify_eq/=.

Ltac not_among H :=
  repeat (apply elem_of_cons in H as [H | H]; [discriminate H |]);
  by apply elem_of_nil in H.

Lemma paths_differ : dataPath ≠ csvPath.
Proof. discriminate. Qed.

Lemma str_nat_reads_back n :
  Nat.of_uint <$> NilZero.uint_of_string (str_nat n) = Some n.
Proof.
  unfold str_nat. rewrite NilZero.usu.
  - simpl. by rewrite Unsigned.of_to.
  - intros Hnil.
    assert (n = 0) as ->.
    { rewrite <- (Unsigned.of_to n), Hnil. done. }
    discriminate Hnil.
Qed.

Lemma writerows_ends d rows :
  rows ≠ [] → ∃ body, Csv.writerows d rows = body +:+ Csv.lineterminator d.
Proof.
  induction rows as [|r rows IH]; [done | intros _].
  destruct rows as [|r' rows].
  - cbn [Csv.writerows]. rewrite str_app_nil_r. unfold Csv.writerow. by eexists.
  - destruct IH as [body Hbody]; [done |].
    cbn [Csv.writerows] in *. rewrite Hbody, <- str_app_assoc. by eexists.
Qed.

Lemma run_keeps_other_files w path :
  path ≠ csvPath →
  fs (main w).2 !! path = fs w !! path ∧ locked (main w).2 = locked w.
Proof.
  intros Hpath. rewrite ScriptFacts.main_behaviour.
  destruct (behaviour _ _) as [[r [text|]] events]; simpl; [|done].
  by rewrite lookup_insert_ne.
Qed.

(** What a successful run has found and done. *)
Lemma success_inv w :
  outcome w = inr () →
  ∃ sch batches df,
    archive_at w sch batches ∧ frame_of sch batches = inr df
    ∧ (csvPath ∉ locked w)
    ∧ output w = Some (csv_text df)
    ∧ trace w = [EvOpen dataPath; EvRead dataPath; EvPrint (ReprReader sch);
                 EvRead dataPath; EvPrint (ReprFrame df);
                 EvWrite csvPath (csv_text df); EvClose dataPath].
Proof.
  unfold outcome, output.
  rewrite ScriptFacts.trace_behaviour, ScriptFacts.main_behaviour.
  destruct (behaviour _ _) as [[r text] events] eqn:Hb. simpl. intros ->.
  unfold behaviour in Hb.
  destruct (fs w !! dataPath) as [bytes|] eqn:Hfs; [|done].
  destruct (ipc_schema bytes) as [e|sch] eqn:Hsch; [done |].
  destruct (ipc_batches bytes) as [e|batches] eqn:Hbs; [done |].
  destruct (frame_of sch batches) as [e|df] eqn:Hdf; [done |].
  case_bool_decide as Hw; [done |]. injection Hb as <- <-.
  exists sch, batches, df. simpl. rewrite lookup_insert_eq.
  split; [by exists bytes | done].
Qed.

Lemma read_to_csv_text d p (df : data_frame value) :
  Csv.lineterminator d = linesep p → df_index df ≠ [] →
  Forall (Forall (λ field, Csv.reads_back d field = true)) (csv_rows render df) →
  Csv.read (to_csv_text render d df) = csv_rows render df.
Proof.
  intros Hlt Hindex Hback. unfold to_csv_text, csv_rows.
  change (Csv.writerow d ?h +:+ Csv.writerows d ?r)
    with (Csv.writerows d (h :: r)).
  apply (CsvFacts.read_written d p); [done | | done].
  constructor.
  - unfold header_row. intros Hnil. apply app_eq_nil in Hnil as [Hnil _].
    by apply fmap_nil_inv in Hnil.
  - apply Forall_forall. intros r (pos & -> & _)%list_elem_of_fmap.
    unfold data_row. intros Hnil. apply app_eq_nil in Hnil as [Hnil _].
    by apply fmap_nil_inv in Hnil.
Qed.

(** X1. A run that ends with an exception, whichever it is, leaves every
    file as it was and has written nothing. *)
Theorem failure_leaves_files w e :
  outcome w = inl e →
  fs (main w).2 = fs w ∧ output w = fs w !! csvPath
  ∧ ∀ path text, EvWrite path text ∉ trace w.
Proof.
  unfold outcome, output.
  rewrite ScriptFacts.trace_behaviour, ScriptFacts.main_behaviour.
  destruct (behaviour _ _) as [[r text] events] eqn:Hb. simpl. intros ->.
  by_cases_of_run Hb; (split; [done |]); (split; [done |]);
    intros path text Hin; not_among Hin.
Qed.

(** X2. The destination is the only path a run can change: every other
    file, the source among them, holds after the run what it held before,
    and the permissions are those of before. *)
Theorem only_destination_changes w path :
  path ≠ csvPath →
  fs (main w).2 !! path = fs w !! path
  ∧ fs (main w).2 !! dataPath = fs w !! dataPath
  ∧ locked (main w).2 = locked w.
Proof.
  intros Hpath.
  destruct (run_keeps_other_files w path Hpath) as [Hfile Hlocked].
  destruct (run_keeps_other_files w dataPath paths_differ) as [Hsource _].
  done.
Qed.

(** X3. The [with] block gives the handle back on every path, also when
    the body raises: after the run the open handles are those of before,
    the log is the old log followed by the events of the run, and these
    events are either none (the source is missing) or start with the one
    open of the source and end with its one close. *)
Theorem handle_released_on_every_path w :
  handles (main w).2 = handles w
  ∧ log (main w).2 = log w ++ trace w
  ∧ (trace w = [] ↔ fs w !! dataPath = None)
  ∧ (trace w = []
     ∨ ∃ inside,
         trace w = EvOpen dataPath :: inside ++ [EvClose dataPath]
         ∧ (EvOpen dataPath ∉ inside) ∧ (EvClose dataPath ∉ inside)).
Proof.
  rewrite ScriptFacts.trace_behaviour, ScriptFacts.main_behaviour.
  destruct (behaviour _ _) as [[r text] events] eqn:Hb. simpl.
  split; [done |]. split; [done |].
  unfold behaviour in Hb.
  destruct (fs w !! dataPath) as [bytes|] eqn:Hfs.
  2: { injection Hb as <- <- <-. split; [done | by left]. }
  assert (∀ inside,
            events = EvOpen dataPath :: inside ++ [EvClose dataPath] →
            EvOpen dataPath ∉ inside → EvClose dataPath ∉ inside →
            (events = [] ↔ Some bytes = None)
            ∧ (events = []
               ∨ ∃ inside,
                   events = EvOpen dataPath :: inside ++ [EvClose dataPath]
                   ∧ (EvOpen dataPath ∉ inside) ∧ (EvClose dataPath ∉ inside)))
    as Hshape.
  { intros inside -> Hopen Hclose. split; [by split | right; by exists inside]. }
  destruct (ipc_schema bytes) as [e|sch].
  { injection Hb as <- <- <-. apply (Hshape [EvRead dataPath]); [done | |];
      intros Hin; not_among Hin. }
  destruct (ipc_batches bytes) as [e|batches].
  { injection Hb as <- <- <-.
    apply (Hshape [EvRead dataPath; EvPrint (ReprReader sch); EvRead dataPath]);
      [done | |]; intros Hin; not_among Hin. }
  destruct (frame_of sch batches) as [e|df].
  { injection Hb as <- <- <-.
    apply (Hshape [EvRead dataPath; EvPrint (ReprReader sch); EvRead dataPath]);
      [done | |]; intros Hin; not_among Hin. }
  destruct (bool_decide (csvPath ∈ locked w)); injection Hb as <- <- <-.
  - apply (Hshape [EvRead dataPath; EvPrint (ReprReader sch); EvRead dataPath;
                   EvPrint (ReprFrame df)]);
      [done | |]; intros Hin; not_among Hin.
  - apply (Hshape [EvRead dataPath; EvPrint (ReprReader sch); EvRead dataPath;
                   EvPrint (ReprFrame df); EvWrite csvPath (csv_text df)]);
      [done | |]; intros Hin; not_among Hin.
Qed.


(** X5. A file at the source path that the reader rejects makes the run
    end with the exception the reader raises, whether or not the
    destination can be written, and changes no file.  When the schema is
    rejected nothing is printed; when the schema decodes and the batches
    are rejected, the reader has been printed before [read_all] fails and
    the frame is never printed. *)
Theorem malformed_archive_fails w bytes e :
  fs w !! dataPath = Some bytes →
  ipc_schema bytes = inl e
  ∨ (∃ sch, ipc_schema bytes = inr sch ∧ ipc_batches bytes = inl e) →
  outcome w = inl e
  ∧ fs (main w).2 = fs w
  ∧ (∀ e', ipc_schema bytes = inl e' →
     trace w = [EvOpen dataPath; EvRead dataPath; EvClose dataPath])
  ∧ (∀ sch, ipc_schema bytes = inr sch →
     trace w = [EvOpen dataPath; EvRead dataPath; EvPrint (ReprReader sch);
                EvRead dataPath; EvClose dataPath]).
Proof.
  intros Hfs Hbad. unfold outcome, trace.
  destruct Hbad as [Hsch | (sch & Hsch & Hbs)].
  - rewrite (ScriptFacts.main_bad_schema w bytes e) by done. simpl.
    split; [done |]. split; [done |]. split.
    + intros _ _. by rewrite drop_app_length.
    + intros sch Hsch'. rewrite Hsch in Hsch'. discriminate Hsch'.
  - rewrite (ScriptFacts.main_bad_batches w bytes sch e) by done. simpl.
    split; [done |]. split; [done |]. split.
    + intros e' Hsch'. rewrite Hsch in Hsch'. discriminate Hsch'.
    + intros sch' Hsch'. rewrite Hsch in Hsch'. injection Hsch' as <-.
      by rewrite drop_app_length.
Qed.

(** X6. With a well-formed stream whose table converts and a destination
    that cannot be written, the run ends with [PermissionError] only after
    the whole stream has been read and both prints are done; no file
    changes and the handle is closed. *)
Theorem unwritable_destination_fails w sch batches df :
  archive_at w sch batches → frame_of sch batches = inr df →
  csvPath ∈ locked w →
  outcome w = inl PermissionError
  ∧ fs (main w).2 = fs w
  ∧ ∃ shown,
      trace w = [EvOpen dataPath; EvRead dataPath; EvPrint (ReprReader sch);
                 EvRead dataPath; EvPrint (ReprFrame shown);
                 EvClose dataPath].
Proof.
  intros Harch Hdf Hw. unfold outcome, trace.
  rewrite (ScriptFacts.main_locked w sch batches df) by done. simpl.
  split; [done |]. split; [done |]. exists df.
  by rewrite drop_app_length.
Qed.

(** X7. Running the script again on the world the first run left changes
    nothing more: the second run ends as the first did, and files,
    permissions and open handles after it are those after the first. *)
Theorem rerun_changes_nothing w :
  outcome (main w).2 = outcome w
  ∧ fs (main (main w).2).2 = fs (main w).2
  ∧ locked (main (main w).2).2 = locked (main w).2
  ∧ handles (main (main w).2).2 = handles (main w).2.
Proof.
  unfold outcome.
  rewrite (ScriptFacts.main_behaviour (main w).2).
  assert (fs (main w).2 !! dataPath = fs w !! dataPath
          ∧ locked (main w).2 = locked w) as [-> ->].
  { apply run_keeps_other_files, paths_differ. }
  rewrite (ScriptFacts.main_behaviour w).
  destruct (behaviour _ _) as [[r [text|]] events] eqn:Hb; simpl.
  - split; [done |]. split; [|done]. by rewrite insert_insert_eq.
  - done.
Qed.

(** X8. When every line break of every field is written inside quotes
    under the terminator of Posix, the records a reader finds do not depend
    on the platform: written with the line terminator of Posix or of
    Windows, the data frame reads back as the same header and rows. *)
Theorem records_same_on_every_platform (df : data_frame value) every :
  df_index df ≠ [] →
  Forall (Forall (λ field,
            Csv.reads_back (Csv.Dialect (linesep Posix) every) field = true))
    (csv_rows render df) →
  Csv.read (to_csv_text render (Csv.Dialect (linesep Posix) every) df)
  = csv_rows render df
  ∧ Csv.read (to_csv_text render (Csv.Dialect (linesep Windows) every) df)
    = csv_rows render df.
Proof.
  intros Hindex Hback. split.
  - by apply (read_to_csv_text _ Posix).
  - apply (read_to_csv_text _ Windows); [done | done |].
    apply Forall_forall. intros r _. apply Forall_forall. intros f _.
    apply (CsvFacts.reads_back_always _ Windows); [done | by right].
Qed.


(** X10. A stream with rows and no columns, and no pandas metadata, is
    still written row by row: the header is one quoted empty field, not a
    blank line, and every data record is the index alone. *)
Theorem no_columns_index_only w sch batches :
  archive_at w sch batches → names sch = [] → plain sch →
  csvPath ∉ locked w →
  ∃ text body,
    output w = Some text
    ∧ text = str1 dquote +:+ str1 dquote +:+ linesep os +:+ body
    ∧ Csv.read text
      = [EmptyString]
        :: ((λ i, [str_nat i]) <$> seq 0 (sum_list (num_rows <$> batches))).
Proof.
  intros Harch Hnames Hplain Hw.
  pose proof (ScriptFacts.archive_fits w sch batches Harch) as Hok.
  destruct (plain_output w sch batches Harch Hplain Hw) as [_ Hout].
  pose proof (ArrowFacts.stream_rows_width (names sch) batches Hok) as Hwidth.
  rewrite Hnames in Hwidth.
  assert (∀ i row, stream_rows batches !! i = Some row → row = []) as Hempty.
  { intros i row Hrow. rewrite Forall_lookup in Hwidth.
    by apply nil_length_inv, (Hwidth i). }
  eexists. eexists. split; [exact Hout |]. split.
  { rewrite Hnames, writerows_header. f_equal. }
  rewrite plain_read; [| done |].
  - rewrite Hnames. f_equal.
    rewrite <- (ArrowFacts.stream_rows_length batches).
    rewrite <- (imap_seq_0 (stream_rows batches) (λ i, [str_nat i])).
    apply imap_ext. intros i row Hrow. by rewrite (Hempty i row Hrow).
  - split; [by rewrite Hnames |].
    apply Forall_lookup. intros i row Hrow. by rewrite (Hempty i row Hrow).
Qed.

(** X11. Without pandas metadata, and with every line break written
    inside quotes, the index column reads back as the position: the first
    field of data record [i], parsed as a decimal number, is [i]; so no two
    rows carry the same label. *)
Theorem index_reads_back_as_position w sch batches :
  archive_at w sch batches → plain sch → texts_read_back sch batches →
  csvPath ∉ locked w →
  ∃ text,
    output w = Some text
    ∧ (∀ i record,
         Csv.read text !! S i = Some record →
         ∃ label,
           head record = Some label
           ∧ Nat.of_uint <$> NilZero.uint_of_string label = Some i)
    ∧ (∀ i j ri rj,
         Csv.read text !! S i = Some ri → Csv.read text !! S j = Some rj →
         head ri = head rj → i = j).
Proof.
  intros Harch Hplain Hback Hw.
  pose proof (ScriptFacts.archive_fits w sch batches Harch) as Hok.
  destruct (plain_output w sch batches Harch Hplain Hw) as [_ Hout].
  eexists. split; [exact Hout |].
  rewrite plain_read by done.
  assert (∀ i record,
            ((EmptyString :: names sch)
             :: imap (λ i row, str_nat i :: (render <$> row)) (stream_rows batches))
              !! S i = Some record →
            head record = Some (str_nat i)) as Hhead.
  { intros i record Hrec. cbn [lookup list_lookup] in Hrec.
    apply list_lookup_imap_Some in Hrec as (row & _ & ->). done. }
  split.
  - intros i record Hrec. exists (str_nat i).
    split; [by apply Hhead | apply str_nat_reads_back].
  - intros i j ri rj Hi Hj Hsame.
    rewrite (Hhead i ri Hi), (Hhead j rj Hj) in Hsame.
    injection Hsame as Hsame.
    pose proof (str_nat_reads_back i) as Hri. rewrite Hsame in Hri.
    rewrite str_nat_reads_back in Hri. by injection Hri.
Qed.

(** X12. The text written by a run that succeeds is never empty and ends
    with the line terminator of the platform: the last record is a complete
    line. *)
Theorem output_ends_with_terminator w :
  outcome w = inr () →
  ∃ text body,
    output w = Some text
    ∧ text = body +:+ linesep os
    ∧ text ≠ EmptyString.
Proof.
  intros (sch & batches & df & _ & _ & _ & Hout & _)%success_inv.
  destruct (writerows_ends dialect (csv_rows render df)) as [body Hbody]; [done |].
  exists (csv_text df), body. split; [done |].
  change (csv_text df) with (Csv.writerows dialect (csv_rows render df)).
  split; [done |].
  rewrite Hbody. intros [_ Hsep]%str_app_eq_nil.
  cbn in Hsep. by destruct os.
Qed.
(** X13. The data frame the run prints is the one it writes: in a run
    that succeeds the text written to the destination, which is the text
    left there, is the CSV text of the data frame given to [print] just
    before, and nothing else is printed or written in between. *)
Theorem printed_frame_is_written w :
  outcome w = inr () →
  ∃ sch df,
    trace w = [EvOpen dataPath; EvRead dataPath; EvPrint (ReprReader sch);
               EvRead dataPath; EvPrint (ReprFrame df);
               EvWrite csvPath (csv_text df); EvClose dataPath]
    ∧ output w = Some (csv_text df).
Proof.
  intros (sch & batches & df & _ & _ & _ & Hout & Htrace)%success_inv.
  by exists sch, df.
Qed.
End Robustness.

Lemma failure_leaves_files_witness :
  Script.fs (Script.main (Sample.locked_world Posix "pairs")).2
  = Script.fs (Sample.locked_world Posix "pairs")
  ∧ Script.output (Sample.locked_world Posix "pairs") = Some "old"
  ∧ ∀ path text,
      Script.EvWrite path text ∉ Script.trace (Sample.locked_world Posix "pairs").
Proof.
  apply (failure_leaves_files (H := Sample.runtime Posix)
           (Sample.locked_world Posix "pairs") PermissionError).
  vm_compute. reflexivity.
Defined.

Lemma only_destination_changes_witness :
  Script.fs (Script.main (Sample.busy_world Posix "people")).2 !! "notes.txt"
  = Some "n"
  ∧ Script.fs (Script.main (Sample.busy_world Posix "people")).2 !! Script.dataPath
    = Some "people"
  ∧ Script.locked (Script.main (Sample.busy_world Posix "people")).2
    = {[ "notes.txt" ]}.
Proof.
  apply (only_destination_changes (H := Sample.runtime Posix)
           (Sample.busy_world Posix "people") "notes.txt").
  discriminate.
Defined.

Lemma malformed_archive_fails_witness :
  Script.outcome (Sample.world_of Posix "ragged") = inl OSError
  ∧ Script.fs (Script.main (Sample.world_of Posix "ragged")).2
    = Script.fs (Sample.world_of Posix "ragged")
  ∧ (∀ e', Sample.decode_schema "ragged" = inl e' →
     Script.trace (Sample.world_of Posix "ragged")
     = [Script.EvOpen Script.dataPath; Script.EvRead Script.dataPath;
        Script.EvClose Script.dataPath])
  ∧ (∀ sch, Sample.decode_schema "ragged" = inr sch →
     Script.trace (Sample.world_of Posix "ragged")
     = [Script.EvOpen Script.dataPath; Script.EvRead Script.dataPath;
        Script.EvPrint (Script.ReprReader (H := Sample.runtime Posix) sch);
        Script.EvRead Script.dataPath; Script.EvClose Script.dataPath]).
Proof.
  apply (malformed_archive_fails (H := Sample.runtime Posix)
           (Sample.world_of Posix "ragged") "ragged" OSError).
  - apply sample_source.
  - right. exists Sample.ragged.1. split; reflexivity.
Defined.

Lemma unwritable_destination_fails_witness :
  Script.outcome (Sample.locked_world Windows "pairs") = inl PermissionError
  ∧ Script.fs (Script.main (Sample.locked_world Windows "pairs")).2
    = Script.fs (Sample.locked_world Windows "pairs")
  ∧ ∃ shown,
      Script.trace (Sample.locked_world Windows "pairs")
      = [Script.EvOpen Script.dataPath; Script.EvRead Script.dataPath;
         Script.EvPrint (Script.ReprReader (H := Sample.runtime Windows)
                           Sample.pairs.1);
         Script.EvRead Script.dataPath;
         Script.EvPrint (Script.ReprFrame (H := Sample.runtime Windows) shown);
         Script.EvClose Script.dataPath].
Proof.
  apply (unwritable_destination_fails (H := Sample.runtime Windows)
           (Sample.locked_world Windows "pairs") Sample.pairs.1 Sample.pairs.2
           (Arrow.apply_layout (Arrow.from_batches Sample.pairs.1 Sample.pairs.2)
              (Arrow.default_layout ["A"; "B"]))).
  - apply pairs_locked_ok.
  - reflexivity.
  - apply (elem_of_singleton_2 (C := gset string)). reflexivity.
Defined.

Lemma records_same_on_every_platform_witness :
  Csv.read (Arrow.to_csv_text Sample.render_cell
              (Csv.Dialect (linesep Posix) false) Sample.people_frame)
  = [[""; "name"; "city"]; ["0"; "Ann"; "Paris, FR"];
     ["1"; "Bob"; "Oslo"]; ["2"; "Cy"; ""]]
  ∧ Csv.read (Arrow.to_csv_text Sample.render_cell
                (Csv.Dialect (linesep Windows) false) Sample.people_frame)
    = [[""; "name"; "city"]; ["0"; "Ann"; "Paris, FR"];
       ["1"; "Bob"; "Oslo"]; ["2"; "Cy"; ""]].
Proof.
  apply (records_same_on_every_platform (H := Sample.runtime Posix)
           Sample.people_frame false).
  - discriminate.
  - vm_compute. repeat constructor.
Defined.


Lemma no_columns_index_only_witness :
  ∃ text body,
    Script.output (Sample.world_of Windows "bare") = Some text
    ∧ text = str1 dquote +:+ str1 dquote +:+ linesep Windows +:+ body
    ∧ Csv.read text = [[""]; ["0"]; ["1"]].
Proof.
  apply (no_columns_index_only (H := Sample.runtime Windows)
           (Sample.world_of Windows "bare") Sample.bare.1 Sample.bare.2).
  - apply bare_ok.
  - reflexivity.
  - reflexivity.
  - apply sample_writable.
Defined.

Lemma index_reads_back_as_position_witness :
  ∃ text,
    Script.output (Sample.world_of Posix "pairs") = Some text
    ∧ (∀ i record,
         Csv.read text !! S i = Some record →
         ∃ label,
           head record = Some label
           ∧ Nat.of_uint <$> NilZero.uint_of_string label = Some i)
    ∧ (∀ i j ri rj,
         Csv.read text !! S i = Some ri → Csv.read text !! S j = Some rj →
         head ri = head rj → i = j).
Proof.
  apply (index_reads_back_as_position (H := Sample.runtime Posix)
           (Sample.world_of Posix "pairs") Sample.pairs.1 Sample.pairs.2).
  - apply pairs_ok.
  - reflexivity.
  - apply pairs_read_back.
  - apply sample_writable.
Defined.

Lemma output_ends_with_terminator_witness :
  ∃ text body,
    Script.output (Sample.world_of Windows "pairs") = Some text
    ∧ text = body +:+ String CR (str1 LF)
    ∧ text ≠ EmptyString.
Proof.
  apply (output_ends_with_terminator (H := Sample.runtime Windows)
           (Sample.world_of Windows "pairs")).
  vm_compute. reflexivity.
Defined.

Lemma printed_frame_is_written_witness :
  ∃ sch df,
    Script.trace (Sample.world_of Posix "people")
    = [Script.EvOpen Script.dataPath; Script.EvRead Script.dataPath;
       Script.EvPrint (Script.ReprReader (H := Sample.runtime Posix) sch);
       Script.EvRead Script.dataPath;
       Script.EvPrint (Script.ReprFrame (H := Sample.runtime Posix) df);
       Script.EvWrite Script.csvPath
         (Script.csv_text (H := Sample.runtime Posix) df);
       Script.EvClose Script.dataPath]
    ∧ Script.output (Sample.world_of Posix "people")
      = Some (Script.csv_text (H := Sample.runtime Posix) df).
Proof.
  apply (printed_frame_is_written (H := Sample.runtime Posix)
           (Sample.world_of Posix "people")).
  vm_compute. reflexivity.
Defined.
